(** * perceptor: the core scheduling model (pkg/core/model.go)

    A shallow embedding of the in-memory model of perceptor's core: the pod
    and image registries, the hub-check queue, the scan queue, the
    concurrency gate and the per-image status transitions, followed by the
    properties the design document states about them. *)

From Stdlib Require Import ZArith.
From stdpp Require Import gmap strings list fin_maps pretty.

Local Open Scope Z_scope.

(** ** Go's [int] on amd64: 64-bit two's complement *)

Module GoInt.

Definition int_min : Z := - 2 ^ 63.
Definition int_max : Z := 2 ^ 63 - 1.

(** The value an arithmetic result takes once it is stored in an [int]. *)
Definition wrap (z : Z) : Z := (z + 2 ^ 63) mod 2 ^ 64 - 2 ^ 63.

Definition add (a b : Z) : Z := wrap (a + b).

Definition in_range (z : Z) : Prop := int_min <= z <= int_max.

End GoInt.

(** ** Data model *)

(** [type DockerImageSha string] *)
Abbreviation DockerImageSha := string (only parsing).

(** Modelled from the spec: the declaration of [Image] is not part of
    model.go; an image is its content digest together with a
    human-readable name. *)
Record Image : Type := mkImage {
  Sha : DockerImageSha;
  Name : string
}.

(** Modelled from the spec: the declaration of [ScanStatus] is not part of
    model.go; the constructors are the eight constants model.go uses. *)
Inductive ScanStatus : Type :=
  | ScanStatusUnknown
  | ScanStatusInHubCheckQueue
  | ScanStatusCheckingHub
  | ScanStatusInQueue
  | ScanStatusRunningScanClient
  | ScanStatusRunningHubScan
  | ScanStatusComplete
  | ScanStatusError.

(** Modelled from the spec: model.go reads scan results only through the
    accessors [PolicyViolationCount()], [VulnerabilityCount()] and
    [OverallStatus()]; a result is the triple of their values. *)
Record ScanResults : Type := mkScanResults {
  PolicyViolationCount : Z;
  VulnerabilityCount : Z;
  OverallStatus : string
}.

(** Modelled from the spec: the declaration of [ImageInfo] is not part of
    model.go; a record holds the status, the optional results (a nil
    pointer until analysis completes) and the image it was created for. *)
Record ImageInfo : Type := mkImageInfo {
  ImageInfo_ScanStatus : ScanStatus;
  ImageInfo_ScanResults : option ScanResults;
  ImageInfo_ImageSha : DockerImageSha;
  ImageInfo_ImageName : string
}.

(** Modelled from the spec: declarations of [Container] and [Pod]. *)
Record Container : Type := mkContainer {
  Container_Image : Image;
  Container_Name : string
}.

Record Pod : Type := mkPod {
  Pod_Name : string;
  Pod_UID : string;
  Pod_Namespace : string;
  Containers : list Container
}.

(** [type Model struct].  [Images] maps a sha to a pointer in the source;
    every pointer is stored under exactly one key, so a write through the
    pointer obtained for [sha] is an update of the entry at [sha]. *)
Record Model : Type := mkModel {
  Pods : gmap string Pod;
  Images : gmap string ImageInfo;
  ImageScanQueue : list Image;
  ImageHubCheckQueue : list Image;
  ConcurrentScanLimit : Z
}.

Global Instance ScanStatus_eq_dec : EqDecision ScanStatus.
Proof. solve_decision. Defined.

Global Instance Image_eq_dec : EqDecision Image.
Proof. solve_decision. Defined.

(** Modelled from the spec: a fresh record starts in the initial status,
    without results. *)
Definition NewImageInfo (sha : DockerImageSha) (name : string) : ImageInfo :=
  {| ImageInfo_ScanStatus := ScanStatusUnknown;
     ImageInfo_ScanResults := None;
     ImageInfo_ImageSha := sha;
     ImageInfo_ImageName := name |}.

(** Modelled from the spec: [imageInfo.image()] gives back the image the
    record was created for. *)
Definition image (info : ImageInfo) : Image :=
  {| Sha := ImageInfo_ImageSha info; Name := ImageInfo_ImageName info |}.

(** Modelled from the spec: the registry key of a pod is
    "<namespace>/<name>". *)
Definition QualifiedName (p : Pod) : string :=
  Pod_Namespace p +:+ "/" +:+ Pod_Name p.

Definition setScanStatus (st : ScanStatus) (info : ImageInfo) : ImageInfo :=
  {| ImageInfo_ScanStatus := st;
     ImageInfo_ScanResults := ImageInfo_ScanResults info;
     ImageInfo_ImageSha := ImageInfo_ImageSha info;
     ImageInfo_ImageName := ImageInfo_ImageName info |}.

Definition setScanResults (r : option ScanResults) (info : ImageInfo)
  : ImageInfo :=
  {| ImageInfo_ScanStatus := ImageInfo_ScanStatus info;
     ImageInfo_ScanResults := r;
     ImageInfo_ImageSha := ImageInfo_ImageSha info;
     ImageInfo_ImageName := ImageInfo_ImageName info |}.

Definition withPods (f : gmap string Pod → gmap string Pod) (m : Model)
  : Model :=
  {| Pods := f (Pods m); Images := Images m;
     ImageScanQueue := ImageScanQueue m;
     ImageHubCheckQueue := ImageHubCheckQueue m;
     ConcurrentScanLimit := ConcurrentScanLimit m |}.

Definition withImages (f : gmap string ImageInfo → gmap string ImageInfo)
  (m : Model) : Model :=
  {| Pods := Pods m; Images := f (Images m);
     ImageScanQueue := ImageScanQueue m;
     ImageHubCheckQueue := ImageHubCheckQueue m;
     ConcurrentScanLimit := ConcurrentScanLimit m |}.

Definition withImageScanQueue (f : list Image → list Image) (m : Model)
  : Model :=
  {| Pods := Pods m; Images := Images m;
     ImageScanQueue := f (ImageScanQueue m);
     ImageHubCheckQueue := ImageHubCheckQueue m;
     ConcurrentScanLimit := ConcurrentScanLimit m |}.

Definition withImageHubCheckQueue (f : list Image → list Image) (m : Model)
  : Model :=
  {| Pods := Pods m; Images := Images m;
     ImageScanQueue := ImageScanQueue m;
     ImageHubCheckQueue := f (ImageHubCheckQueue m);
     ConcurrentScanLimit := ConcurrentScanLimit m |}.

(** ** Methods that may panic: a state monad with an abort *)

(** The places where model.go panics. *)
Inductive PanicSite : Type :=
  | PanicImageMissing (sha : DockerImageSha)
  | PanicAddToHubCheckQueue (sha : DockerImageSha) (st : ScanStatus)
  | PanicAddToScanQueue (sha : DockerImageSha) (st : ScanStatus)
  | PanicStartHubCheck (sha : DockerImageSha) (st : ScanStatus)
  | PanicStartScan (sha : DockerImageSha) (st : ScanStatus)
  | PanicErrorScanClient (sha : DockerImageSha) (st : ScanStatus)
  | PanicFinishScanClient (sha : DockerImageSha) (st : ScanStatus)
  | PanicFinishHubScan (sha : DockerImageSha) (st : ScanStatus).

(** A call either returns a value and the model it leaves, or panics; a
    panic carries the model as the writes made before it left it. *)
Inductive Res (A : Type) : Type :=
  | Ok (a : A) (m : Model)
  | Panicked (site : PanicSite) (m : Model).
Arguments Ok {A} a m.
Arguments Panicked {A} site m.

Definition M (A : Type) : Type := Model → Res A.

Definition ret {A} (a : A) : M A := λ m, Ok a m.

Definition bind {A B} (c : M A) (k : A → M B) : M B :=
  λ m, match c m with
       | Ok a m' => k a m'
       | Panicked site m' => Panicked site m'
       end.

Definition panic {A} (site : PanicSite) : M A := λ m, Panicked site m.

Definition modify (f : Model → Model) : M unit := λ m, Ok tt (f m).

Global Instance M_ret : MRet M := @ret.
Global Instance M_bind : MBind M := λ A B k c, bind c k.

Definition stateOf {A} (r : Res A) : Model :=
  match r with Ok _ m => m | Panicked _ m => m end.

Definition isOk {A} (r : Res A) : bool :=
  match r with Ok _ _ => true | Panicked _ _ => false end.

(** ** The model's methods *)

Definition NewModel (concurrentScanLimit : Z) : Model :=
  {| Pods := ∅; Images := ∅; ImageScanQueue := []; ImageHubCheckQueue := [];
     ConcurrentScanLimit := concurrentScanLimit |}.

Definition DeletePod (podName : string) (m : Model) : Model :=
  withPods (delete podName) m.

Definition safeGet (sha : DockerImageSha) : M ImageInfo :=
  λ m, match Images m !! sha with
       | Some results => Ok results m
       | None => Panicked (PanicImageMissing sha) m
       end.

Definition addImageToHubCheckQueue (sha : DockerImageSha) : M unit :=
  imageInfo ← safeGet sha ;
  match ImageInfo_ScanStatus imageInfo with
  | ScanStatusUnknown | ScanStatusError => ret tt
  | st => panic (PanicAddToHubCheckQueue sha st)
  end ;;
  let imageInfo' := setScanStatus ScanStatusInHubCheckQueue imageInfo in
  modify (withImages (insert sha imageInfo')) ;;
  modify (withImageHubCheckQueue (λ q, q ++ [image imageInfo'])).

Definition addImageToScanQueue (sha : DockerImageSha) : M unit :=
  imageInfo ← safeGet sha ;
  match ImageInfo_ScanStatus imageInfo with
  | ScanStatusCheckingHub | ScanStatusError => ret tt
  | st => panic (PanicAddToScanQueue sha st)
  end ;;
  let imageInfo' := setScanStatus ScanStatusInQueue imageInfo in
  modify (withImages (insert sha imageInfo')) ;;
  modify (withImageScanQueue (λ q, q ++ [image imageInfo'])).

Definition AddImage (img : Image) : M unit :=
  λ m, match Images m !! Sha img with
       | None =>
           (modify (withImages (insert (Sha img)
                                  (NewImageInfo (Sha img) (Name img)))) ;;
            addImageToHubCheckQueue (Sha img)) m
       | Some _ => Ok tt m
       end.

Fixpoint forEach {A} (l : list A) (body : A → M unit) : M unit :=
  match l with
  | [] => ret tt
  | x :: l' => body x ;; forEach l' body
  end.

Definition AddPod (newPod : Pod) : M unit :=
  forEach (Containers newPod) (λ newCont, AddImage (Container_Image newCont)) ;;
  modify (withPods (insert (QualifiedName newPod) newPod)).

Definition getNextImageFromHubCheckQueue : M (option Image) :=
  λ m, match ImageHubCheckQueue m with
       | [] => Ok None m
       | first :: rest =>
           (imageInfo ← safeGet (Sha first) ;
            (if decide (ImageInfo_ScanStatus imageInfo
                        = ScanStatusInHubCheckQueue)
             then ret tt
             else panic (PanicStartHubCheck (Sha first)
                           (ImageInfo_ScanStatus imageInfo))) ;;
            modify (withImages (insert (Sha first)
                      (setScanStatus ScanStatusCheckingHub imageInfo))) ;;
            modify (withImageHubCheckQueue (λ _, rest)) ;;
            ret (Some first)) m
       end.

Definition isInProgress (st : ScanStatus) : bool :=
  match st with
  | ScanStatusRunningScanClient | ScanStatusRunningHubScan => true
  | _ => false
  end.

(** The source ranges over a Go map, in an unspecified order; here the
    order is the one of [map_to_list]. *)
Definition inProgressScanJobs (m : Model) : list DockerImageSha :=
  foldl (λ inProgressShas kv,
           if isInProgress (ImageInfo_ScanStatus kv.2)
           then inProgressShas ++ [kv.1] else inProgressShas)
        [] (map_to_list (Images m)).

Definition inProgressScanCount (m : Model) : Z :=
  Z.of_nat (length (inProgressScanJobs m)).

Definition inProgressHubScans (m : Model) : list Image :=
  foldl (λ acc kv,
           match ImageInfo_ScanStatus kv.2 with
           | ScanStatusRunningHubScan => acc ++ [image kv.2]
           | _ => acc
           end)
        [] (map_to_list (Images m)).

Definition getNextImageFromScanQueue : M (option Image) :=
  λ m, if decide (inProgressScanCount m >= ConcurrentScanLimit m)
       then Ok None m
       else match ImageScanQueue m with
            | [] => Ok None m
            | first :: rest =>
                (imageInfo ← safeGet (Sha first) ;
                 (if decide (ImageInfo_ScanStatus imageInfo
                             = ScanStatusInQueue)
                  then ret tt
                  else panic (PanicStartScan (Sha first)
                                (ImageInfo_ScanStatus imageInfo))) ;;
                 modify (withImages (insert (Sha first)
                    (setScanStatus ScanStatusRunningScanClient imageInfo))) ;;
                 modify (withImageScanQueue (λ _, rest)) ;;
                 ret (Some first)) m
            end.

Definition errorRunningScanClient (img : Image) : M unit :=
  results ← safeGet (Sha img) ;
  (if decide (ImageInfo_ScanStatus results = ScanStatusRunningScanClient)
   then ret tt
   else panic (PanicErrorScanClient (Sha img)
                 (ImageInfo_ScanStatus results))) ;;
  modify (withImages (insert (Sha img)
            (setScanStatus ScanStatusError results))) ;;
  addImageToScanQueue (Sha img).

Definition finishRunningScanClient (img : Image) : M unit :=
  results ← safeGet (Sha img) ;
  (if decide (ImageInfo_ScanStatus results = ScanStatusRunningScanClient)
   then ret tt
   else panic (PanicFinishScanClient (Sha img)
                 (ImageInfo_ScanStatus results))) ;;
  modify (withImages (insert (Sha img)
            (setScanStatus ScanStatusRunningHubScan results))).

(** Modelled from the spec: model.go has no live method for the last
    transition of the table (its [finishRunningHubScan] is commented out).
    Following the transition table, ReportAnalysisComplete requires the
    record to be in HubScanRunning, moves it to Complete and attaches the
    results; on any other record it aborts like the other transitions. *)
Definition ReportAnalysisComplete (img : Image) (r : ScanResults) : M unit :=
  results ← safeGet (Sha img) ;
  (if decide (ImageInfo_ScanStatus results = ScanStatusRunningHubScan)
   then ret tt
   else panic (PanicFinishHubScan (Sha img)
                 (ImageInfo_ScanStatus results))) ;;
  modify (withImages (insert (Sha img)
            (setScanResults (Some r)
               (setScanStatus ScanStatusComplete results)))).

(** [scanResults]: the four results of the source, the last one being the
    error (nil when absent). *)
Definition scanResultsStep (m : Model) (acc : Z * Z * string)
  (container : Container) : Z * Z * string :=
  let '(policyViolationCount, vulnerabilityCount, overallStatus) := acc in
  match Images m !! Sha (Container_Image container) with
  | None => acc
  | Some imageInfo =>
      if decide (ImageInfo_ScanStatus imageInfo = ScanStatusComplete) then
        match ImageInfo_ScanResults imageInfo with
        | None => acc
        | Some r =>
            (GoInt.add policyViolationCount (PolicyViolationCount r),
             GoInt.add vulnerabilityCount (VulnerabilityCount r),
             if decide (OverallStatus r = "NOT_IN_VIOLATION")
             then overallStatus else OverallStatus r)
        end
      else acc
  end.

Definition scanResults (podName : string) (m : Model)
  : Z * Z * string * option string :=
  match Pods m !! podName with
  | None =>
      (0, 0, "",
       Some ("could not find pod of name " +:+ podName +:+ " in cache"))
  | Some pod =>
      let '(p, v, s) := foldl (scanResultsStep m) (0, 0, "") (Containers pod) in
      (p, v, s, None)
  end.

(** ** The transition system of the core operations *)

Inductive Op : Type :=
  | OpAddPod (newPod : Pod)
  | OpDeletePod (podName : string)
  | OpAddImage (img : Image)
  | OpAddImageToHubCheckQueue (sha : DockerImageSha)
  | OpAddImageToScanQueue (sha : DockerImageSha)
  | OpGetNextImageFromHubCheckQueue
  | OpGetNextImageFromScanQueue
  | OpErrorRunningScanClient (img : Image)
  | OpFinishRunningScanClient (img : Image)
  | OpReportAnalysisComplete (img : Image) (r : ScanResults).

Definition discard {A} (c : M A) : M unit := c ;; mret tt.

Definition run (op : Op) : M unit :=
  match op with
  | OpAddPod newPod => AddPod newPod
  | OpDeletePod podName => modify (DeletePod podName)
  | OpAddImage img => AddImage img
  | OpAddImageToHubCheckQueue sha => addImageToHubCheckQueue sha
  | OpAddImageToScanQueue sha => addImageToScanQueue sha
  | OpGetNextImageFromHubCheckQueue => discard getNextImageFromHubCheckQueue
  | OpGetNextImageFromScanQueue => discard getNextImageFromScanQueue
  | OpErrorRunningScanClient img => errorRunningScanClient img
  | OpFinishRunningScanClient img => finishRunningScanClient img
  | OpReportAnalysisComplete img r => ReportAnalysisComplete img r
  end.

(** A run of the process: a panic ends it, so the states a model goes
    through are those left by calls that returned. *)
Inductive reachable (limit : Z) : Model → Prop :=
  | reachable_new : reachable limit (NewModel limit)
  | reachable_step m op m' :
      reachable limit m → run op m = Ok tt m' → reachable limit m'.

Definition runAll (ops : list Op) : M unit := forEach ops run.

(** ** Specification-side definitions *)

(** How many records of the registry satisfy [P]. *)
Definition countP (P : string * ImageInfo → Prop) `{!∀ kv, Decision (P kv)}
  (imgs : gmap string ImageInfo) : nat :=
  length (filter P (map_to_list imgs)).

Definition ind (P : string * ImageInfo → Prop) `{!∀ kv, Decision (P kv)}
  (k : string) (x : ImageInfo) : nat :=
  if decide (P (k, x)) then 1%nat else 0%nat.

Definition inProgress (kv : string * ImageInfo) : Prop :=
  isInProgress (ImageInfo_ScanStatus kv.2) = true.

Definition checkingHub (kv : string * ImageInfo) : Prop :=
  ImageInfo_ScanStatus kv.2 = ScanStatusCheckingHub.

Global Instance inProgress_dec kv : Decision (inProgress kv).
Proof. unfold inProgress. apply _. Defined.

Global Instance checkingHub_dec kv : Decision (checkingHub kv).
Proof. unfold checkingHub. apply _. Defined.

Definition activeScanCount (m : Model) : nat := countP inProgress (Images m).

Definition occurrences (sha : DockerImageSha) (q : list Image) : nat :=
  length (filter (λ img, Sha img = sha) q).

Definition statusOf (m : Model) (sha : DockerImageSha) : option ScanStatus :=
  ImageInfo_ScanStatus <$> Images m !! sha.

Definition resultsOf (m : Model) (sha : DockerImageSha)
  : option (option ScanResults) :=
  ImageInfo_ScanResults <$> Images m !! sha.

(** What a container adds to its pod's aggregate: the results of its
    image's record, when that record exists, is Complete and has some. *)
Definition contribution (m : Model) (c : Container) : option ScanResults :=
  info ← Images m !! Sha (Container_Image c);
  if decide (ImageInfo_ScanStatus info = ScanStatusComplete)
  then ImageInfo_ScanResults info else None.

(** The records that count towards a pod's aggregate, in container order. *)
Definition completedResults (m : Model) (cs : list Container)
  : list ScanResults :=
  omap (contribution m) cs.

Definition sumZ (l : list Z) : Z := foldr Z.add 0 l.

(** The status an aggregate reports: the last one, in container order,
    that differs from the "no violation" sentinel; empty when none does. *)
Definition lastViolation (rs : list ScanResults) : string :=
  default "" (last (filter (λ s, s ≠ "NOT_IN_VIOLATION")
                           (OverallStatus <$> rs))).

(** The queue discipline: every queued image has a record in the status of
    its queue, records are filed under their own sha, and no sha is queued
    twice. *)
Record consistent (m : Model) : Prop := mkConsistent {
  consistent_keys : ∀ sha info,
    Images m !! sha = Some info → ImageInfo_ImageSha info = sha;
  consistent_nodup :
    NoDup (Sha <$> (ImageHubCheckQueue m ++ ImageScanQueue m));
  consistent_hub : ∀ img, img ∈ ImageHubCheckQueue m →
    statusOf m (Sha img) = Some ScanStatusInHubCheckQueue;
  consistent_scan : ∀ img, img ∈ ImageScanQueue m →
    statusOf m (Sha img) = Some ScanStatusInQueue
}.

(** The capacity invariant for a model created with [limit]. *)
Definition withinCapacity (limit : Z) (m : Model) : Prop :=
  ConcurrentScanLimit m = limit ∧ Z.of_nat (activeScanCount m) <= limit.

(** Dequeue [n] times from the hub-check queue, collecting what is
    returned. *)
Fixpoint drainHubCheckQueue (n : nat) : M (list (option Image)) :=
  match n with
  | O => mret []
  | S n' =>
      x ← getNextImageFromHubCheckQueue ;
      xs ← drainHubCheckQueue n' ;
      mret (x :: xs)
  end.

Definition checkingHubCount (m : Model) : nat :=
  countP checkingHub (Images m).

(** The transitions of the status machine that take a record from one
    status to the next, with the status each one requires. *)
Inductive Transition : Type :=
  | EnqueueForHubCheck
  | EnqueueForScan
  | DequeueForHubCheck
  | DequeueForScan
  | ReportScanError
  | ReportScanClientFinished.

Definition precondition (t : Transition) (st : ScanStatus) : bool :=
  match t, st with
  | EnqueueForHubCheck, (ScanStatusUnknown | ScanStatusError) => true
  | EnqueueForScan, (ScanStatusCheckingHub | ScanStatusError) => true
  | DequeueForHubCheck, ScanStatusInHubCheckQueue => true
  | DequeueForScan, ScanStatusInQueue => true
  | ReportScanError, ScanStatusRunningScanClient => true
  | ReportScanClientFinished, ScanStatusRunningScanClient => true
  | _, _ => false
  end.

Definition invoke (t : Transition) (img : Image) : M unit :=
  match t with
  | EnqueueForHubCheck => addImageToHubCheckQueue (Sha img)
  | EnqueueForScan => addImageToScanQueue (Sha img)
  | DequeueForHubCheck => discard getNextImageFromHubCheckQueue
  | DequeueForScan => discard getNextImageFromScanQueue
  | ReportScanError => errorRunningScanClient img
  | ReportScanClientFinished => finishRunningScanClient img
  end.

(** The record a call of a transition acts on: the one of its argument,
    and for a dequeue the head of its queue (for the scan queue, when the
    gate lets the call reach the queue). *)
Definition actsOn (t : Transition) (m : Model) (img : Image) : Prop :=
  match t with
  | DequeueForHubCheck => head (ImageHubCheckQueue m) = Some img
  | DequeueForScan =>
      head (ImageScanQueue m) = Some img
      ∧ inProgressScanCount m < ConcurrentScanLimit m
  | _ => True
  end.

(** [n] images with pairwise different shas. *)
Definition freshImages (n : nat) : list Image :=
  (λ i : nat, {| Sha := pretty i; Name := "" |}) <$> seq 0 n.

(** ** Example runs *)

Definition imageA : Image := {| Sha := "sha-a"; Name := "a" |}.
Definition imageB : Image := {| Sha := "sha-b"; Name := "b" |}.

Definition podP : Pod :=
  {| Pod_Name := "P"; Pod_UID := "uid-p"; Pod_Namespace := "ns";
     Containers := [ {| Container_Image := imageA; Container_Name := "c1" |};
                     {| Container_Image := imageB; Container_Name := "c2" |} ]
  |}.

Definition resultsA : ScanResults :=
  {| PolicyViolationCount := 2; VulnerabilityCount := 5;
     OverallStatus := "IN_VIOLATION" |}.
Definition resultsB : ScanResults :=
  {| PolicyViolationCount := 0; VulnerabilityCount := 1;
     OverallStatus := "NOT_IN_VIOLATION" |}.

(** Both images checked against the hub and queued for a scan. *)
Definition queuedOps : list Op :=
  [ OpAddPod podP;
    OpGetNextImageFromHubCheckQueue; OpGetNextImageFromHubCheckQueue;
    OpAddImageToScanQueue "sha-a"; OpAddImageToScanQueue "sha-b" ].

(** With a limit of one: image A is being scanned, image B waits. *)
Definition busyModel : Model :=
  stateOf (runAll (queuedOps ++ [OpGetNextImageFromScanQueue]) (NewModel 1)).

(** With a limit of two: both images scanned and analysed. *)
Definition completeOps : list Op :=
  queuedOps ++
  [ OpGetNextImageFromScanQueue; OpGetNextImageFromScanQueue;
    OpFinishRunningScanClient imageA; OpFinishRunningScanClient imageB;
    OpReportAnalysisComplete imageA resultsA;
    OpReportAnalysisComplete imageB resultsB ].

Definition completeModel : Model := stateOf (runAll completeOps (NewModel 2)).

(** With a limit of one: image A handed over to the hub, image B waits. *)
Definition hubScanModel : Model :=
  stateOf (runAll (queuedOps ++ [ OpGetNextImageFromScanQueue;
                                  OpFinishRunningScanClient imageA ])
             (NewModel 1)).

(** A single image, being scanned, with nothing else queued. *)
Definition retryModel : Model :=
  stateOf (runAll [ OpAddImage imageA; OpGetNextImageFromHubCheckQueue;
                    OpAddImageToScanQueue "sha-a";
                    OpGetNextImageFromScanQueue ] (NewModel 1)).

(** A pod without the containers that run the image [sha]. *)
Definition withoutImage (sha : DockerImageSha) (p : Pod) : Pod :=
  {| Pod_Name := Pod_Name p; Pod_UID := Pod_UID p;
     Pod_Namespace := Pod_Namespace p;
     Containers := filter (λ c, Sha (Container_Image c) ≠ sha)
                          (Containers p) |}.

(** A pod all of whose containers run image A. *)
Definition podQ : Pod :=
  {| Pod_Name := "Q"; Pod_UID := "uid-q"; Pod_Namespace := "ns";
     Containers := [ {| Container_Image := imageA; Container_Name := "c" |} ]
  |}.

Definition imageC : Image := {| Sha := "sha-c"; Name := "c" |}.

(** With a limit of one: image A is being scanned, image B waits for a
    scan and image C for its hub check. *)
Definition gatedModel : Model :=
  stateOf (runAll (queuedOps ++ [ OpGetNextImageFromScanQueue;
                                  OpAddImage imageC ]) (NewModel 1)).

(** What the status of the record filed under [sha] says about the
    queues: a queued status names the queue the sha is in, and the two
    statuses a record only passes through within a call are excluded. *)
Definition statusOk (m : Model) (sha : DockerImageSha) (st : ScanStatus)
  : Prop :=
  match st with
  | ScanStatusInHubCheckQueue => sha ∈ Sha <$> ImageHubCheckQueue m
  | ScanStatusInQueue => sha ∈ Sha <$> ImageScanQueue m
  | ScanStatusUnknown | ScanStatusError => False
  | _ => True
  end.

Definition settled (m : Model) : Prop :=
  ∀ sha info, Images m !! sha = Some info →
              statusOk m sha (ImageInfo_ScanStatus info).

(** The operations that give capacity back. *)
Definition isReport (op : Op) : bool :=
  match op with
  | OpErrorRunningScanClient _ | OpReportAnalysisComplete _ _ => true
  | _ => false
  end.

(** The operations that are live methods of model.go. *)
Definition isLive (op : Op) : bool :=
  match op with
  | OpReportAnalysisComplete _ _ => false
  | _ => true
  end.

(** Every record of [m] is still there in [m'], under the same sha and
    name. *)
Definition keepsRecords (m m' : Model) : Prop :=
  ∀ sha info, Images m !! sha = Some info →
    ∃ info', Images m' !! sha = Some info'
             ∧ ImageInfo_ImageSha info' = ImageInfo_ImageSha info
             ∧ ImageInfo_ImageName info' = ImageInfo_ImageName info.

Definition hubScanRunning (kv : string * ImageInfo) : Prop :=
  ImageInfo_ScanStatus kv.2 = ScanStatusRunningHubScan.

Global Instance hubScanRunning_dec kv : Decision (hubScanRunning kv).
Proof. unfold hubScanRunning. apply _. Defined.

(** No record is complete or has results. *)
Definition noResults (m : Model) : Prop :=
  ∀ sha info, Images m !! sha = Some info →
    ImageInfo_ScanStatus info ≠ ScanStatusComplete
    ∧ ImageInfo_ScanResults info = None.

(** With a limit of one: both images wait for a scan, none runs. *)
Definition queuedModel : Model := stateOf (runAll queuedOps (NewModel 1)).

(** With a limit of zero: both images wait for a scan. *)
Definition stalledModel : Model := stateOf (runAll queuedOps (NewModel 0)).

(** A pod with two containers that run image A. *)
Definition podTwice : Pod :=
  {| Pod_Name := "T"; Pod_UID := "uid-t"; Pod_Namespace := "ns";
     Containers := [ {| Container_Image := imageA; Container_Name := "c1" |};
                     {| Container_Image := imageA; Container_Name := "c2" |} ]
  |}.

Definition twiceModel : Model :=
  stateOf (runAll (completeOps ++ [OpAddPod podTwice]) (NewModel 2)).

(** Two pods with the same two containers in opposite orders, both images
    analysed, each with a status that is not the sentinel. *)
Definition resultsC : ScanResults :=
  {| PolicyViolationCount := 1; VulnerabilityCount := 0;
     OverallStatus := "IN_VIOLATION_OVERRIDDEN" |}.

Definition podAC : Pod :=
  {| Pod_Name := "AC"; Pod_UID := "uid-ac"; Pod_Namespace := "ns";
     Containers := [ {| Container_Image := imageA; Container_Name := "c1" |};
                     {| Container_Image := imageC; Container_Name := "c2" |} ]
  |}.

Definition podCA : Pod :=
  {| Pod_Name := "CA"; Pod_UID := "uid-ca"; Pod_Namespace := "ns";
     Containers := [ {| Container_Image := imageC; Container_Name := "c2" |};
                     {| Container_Image := imageA; Container_Name := "c1" |} ]
  |}.

Definition orderOps : list Op :=
  [ OpAddPod podAC; OpAddPod podCA;
    OpGetNextImageFromHubCheckQueue; OpGetNextImageFromHubCheckQueue;
    OpAddImageToScanQueue "sha-a"; OpAddImageToScanQueue "sha-c";
    OpGetNextImageFromScanQueue; OpGetNextImageFromScanQueue;
    OpFinishRunningScanClient imageA; OpFinishRunningScanClient imageC;
    OpReportAnalysisComplete imageA resultsA;
    OpReportAnalysisComplete imageC resultsC ].

Definition orderModel : Model := stateOf (runAll orderOps (NewModel 2)).

(** * Package hub: when the scan of a project version is done *)

Module hub.

(** The structs as far as [IsImageScanDone] reads them. *)
Record ScanSummary : Type := mkScanSummary {
  Status : string
}.

Record CodeLocation : Type := mkCodeLocation {
  CodeLocation_Name : string;
  ScanSummaries : list ScanSummary
}.

Record Version : Type := mkVersion {
  CodeLocations : list CodeLocation;
  VersionName : string
}.

(** The statuses of the [case] of the switch. *)
Definition doneStatuses : list string :=
  [ "ERROR"; "ERROR_BUILDING_BOM"; "ERROR_MATCHING";
    "ERROR_SAVING_SCAN_DATA"; "ERROR_SCANNING"; "CANCELLED"; "COMPLETE" ].

(** The inner loop: [false] is the early return, [true] is falling out of
    the loop. *)
Fixpoint scanSummariesLoop (l : list ScanSummary) : bool :=
  match l with
  | [] => true
  | scanSummary :: l' =>
      if bool_decide (Status scanSummary ∈ doneStatuses)
      then scanSummariesLoop l'
      else false
  end.

Fixpoint codeLocationsLoop (l : list CodeLocation) : bool :=
  match l with
  | [] => true
  | codeLocation :: l' =>
      if (length (ScanSummaries codeLocation) =? 0)%nat then false
      else if scanSummariesLoop (ScanSummaries codeLocation)
           then codeLocationsLoop l'
           else false
  end.

Definition IsImageScanDone (version : Version) : bool :=
  if (length (CodeLocations version) =? 0)%nat then false
  else codeLocationsLoop (CodeLocations version).

(** Every code location has a scan summary and every scan summary has
    come to an end. *)
Definition allScansEnded (version : Version) : Prop :=
  Forall (λ cl, ScanSummaries cl ≠ []
                ∧ Forall (λ s, Status s ∈ doneStatuses) (ScanSummaries cl))
         (CodeLocations version).

Definition withCodeLocations (cls : list CodeLocation) (v : Version)
  : Version :=
  {| CodeLocations := cls; VersionName := VersionName v |}.

Definition exampleVersion : Version :=
  {| CodeLocations :=
       [ {| CodeLocation_Name := "cl1";
            ScanSummaries := [ {| Status := "ERROR_SCANNING" |};
                               {| Status := "COMPLETE" |} ] |} ];
     VersionName := "1.0" |}.

End hub.

(** * Package docker: the names an image goes by *)

Module docker.
Import Stdlib.Strings.Ascii.

Record Image : Type := mkImage {
  name : string
}.






End docker.

(** Every queued image is the image (sha and name) of its record. *)
Definition queueMatches (m : Model) : Prop :=
  ∀ img, img ∈ ImageHubCheckQueue m ++ ImageScanQueue m →
    ∃ info, Images m !! Sha img = Some info ∧ image info = img.

(** * The status metrics of the core *)

Global Instance Image_countable : Countable Image.
Proof.
  refine (inj_countable' (λ i, (Sha i, Name i))
            (λ p, {| Sha := p.1; Name := p.2 |}) _).
  by intros [].
Defined.

Module metrics.

(** [counts[key]++] on a [map[K]int]: a missing key reads as zero. *)
Definition increment {K} `{Countable K} (key : K) (counts : gmap K Z)
  : gmap K Z :=
  <[key := GoInt.add (default 0 (counts !! key)) 1]> counts.

(** The maps [generateStatusMetrics] computes from the latest model,
    before it hands their entries to the gauges. It reads the model only
    through its images and their statuses and its pods and their
    containers' images, which both models of the file have; the model
    taken here is the one with the two queues. The loops range over Go
    maps; here in the order of [map_to_list]. *)
Section generateStatusMetrics.

(** [ScanStatus.String], which the source file does not show. *)
Variable StatusString : ScanStatus → string.

Definition statusCounts (model : Model) : gmap string Z :=
  foldl (λ statusCounts (kv : string * ImageInfo),
           increment (StatusString (ImageInfo_ScanStatus kv.2)) statusCounts)
        ∅ (map_to_list (Images model)).

Definition number_of_pods (model : Model) : Z :=
  Z.of_nat (size (Pods model)).

Definition number_of_images (model : Model) : Z :=
  Z.of_nat (size (Images model)).

Definition containerCounts (model : Model) : gmap Z Z :=
  foldl (λ containerCounts (kv : string * Pod),
           increment (Z.of_nat (length (Containers kv.2))) containerCounts)
        ∅ (map_to_list (Pods model)).

Definition imageCounts (model : Model) : gmap Image Z :=
  foldl (λ imageCounts (kv : string * Pod),
           foldl (λ imageCounts cont,
                    increment (Container_Image cont) imageCounts)
                 imageCounts (Containers kv.2))
        ∅ (map_to_list (Pods model)).

Definition imageCountHistogram (model : Model) : gmap Z Z :=
  foldl (λ imageCountHistogram (kv : Image * Z),
           increment kv.2 imageCountHistogram)
        ∅ (map_to_list (imageCounts model)).

End generateStatusMetrics.

(** Specification side: counting the entries of a list by a key. *)
Definition histogram {A K} `{Countable K} (f : A → K) (l : list A)
  : gmap K Z :=
  foldl (λ counts x, increment (f x) counts) ∅ l.

Definition tally {A K} `{EqDecision K} (f : A → K) (key : K) (l : list A)
  : nat :=
  length (filter (λ x, f x = key) l).

(** The sum of the counts of a map. *)
Definition total {K} `{Countable K} (counts : gmap K Z) : Z :=
  map_fold (λ _ v acc, v + acc) 0 counts.

(** What a count of [n] looks like in a map of counts: no entry when
    nothing was counted. *)
Definition counted (n : nat) : option Z :=
  if decide (n = 0%nat) then None else Some (Z.of_nat n).

(** All containers of all pods. *)
Definition allContainers (model : Model) : list Container :=
  map_to_list (Pods model) ≫= λ kv, Containers kv.2.

(** A rendering of the statuses, for the examples. *)
Definition exampleStatusString (st : ScanStatus) : string :=
  match st with
  | ScanStatusInHubCheckQueue => "InHubCheckQueue"
  | ScanStatusCheckingHub => "CheckingHub"
  | ScanStatusInQueue => "InQueue"
  | ScanStatusRunningScanClient => "RunningScanClient"
  | ScanStatusRunningHubScan => "RunningHubScan"
  | ScanStatusComplete => "Complete"
  | ScanStatusError => "Error"
  | _ => "Unknown"
  end.

End metrics.

(** * Package scanner: looking a project up in the hub *)

Module scanner.

(** A project as the hub lists it. *)
Record hubapiProject : Type := mkHubapiProject {
  Project_Name : string;
  Project_Source : string
}.

Section HubFetcher.

(** The hub client is another repository's code and talks to a server:
    its calls come in as their results. [Project] is what [fetchProject]
    builds, [error] a Go error. *)
Context {Project error : Type}.

(** The loop over [projs.Items]: the first project of the wanted name is
    fetched and the result of that is returned. *)
Fixpoint itemsLoop (fetchProject : hubapiProject → option Project * option error)
  (projectName : string) (items : list hubapiProject)
  : option Project * option error :=
  match items with
  | [] => (None, None)
  | p :: items' =>
      if decide (Project_Name p ≠ projectName)
      then itemsLoop fetchProject projectName items'
      else fetchProject p
  end.

Definition FetchProjectOfName
  (ListProjects : list hubapiProject + error)
  (fetchProject : hubapiProject → option Project * option error)
  (projectName : string) : option Project * option error :=
  match ListProjects with
  | inr err => (None, Some err)
  | inl projs => itemsLoop fetchProject projectName projs
  end.

End HubFetcher.

End scanner.

(** * The earlier model of the same file: a single queue *)

Module legacy.

Inductive ScanStatus : Type :=
  | ScanStatusNotScanned
  | ScanStatusInQueue
  | ScanStatusRunningScanClient
  | ScanStatusRunningHubScan
  | ScanStatusComplete
  | ScanStatusError.

Global Instance ScanStatus_eq_dec : EqDecision ScanStatus.
Proof. solve_decision. Defined.

Record ImageScanResults : Type := mkImageScanResults {
  ImageScanResults_ScanStatus : ScanStatus;
  ImageScanResults_ScanResults : option ScanResults
}.

Definition setScanStatus (st : ScanStatus) (results : ImageScanResults)
  : ImageScanResults :=
  {| ImageScanResults_ScanStatus := st;
     ImageScanResults_ScanResults := ImageScanResults_ScanResults results |}.

Section model.

(** [common.Image], a struct used as a map key, and [common.Pod] belong to
    another package. *)
Context {Image Pod : Type} `{Countable Image}.

Record Model : Type := mkModel {
  Pods : gmap string Pod;
  Images : gmap Image ImageScanResults;
  ImageScanQueue : list Image;
  ConcurrentScanLimit : Z
}.

(** A call returns a value and the model it leaves, or panics. *)
Inductive Result (A : Type) : Type :=
  | Returned (a : A) (m : Model)
  | Panics.
Arguments Returned {A} a m.
Arguments Panics {A}.

Definition NewModel (concurrentScanLimit : Z) : Model :=
  {| Pods := ∅; Images := ∅; ImageScanQueue := [];
     ConcurrentScanLimit := concurrentScanLimit |}.

Definition DeletePod (podName : string) (m : Model) : Model :=
  {| Pods := delete podName (Pods m); Images := Images m;
     ImageScanQueue := ImageScanQueue m;
     ConcurrentScanLimit := ConcurrentScanLimit m |}.

Definition withImages (f : gmap Image ImageScanResults
                           → gmap Image ImageScanResults) (m : Model)
  : Model :=
  {| Pods := Pods m; Images := f (Images m);
     ImageScanQueue := ImageScanQueue m;
     ConcurrentScanLimit := ConcurrentScanLimit m |}.

Definition withImageScanQueue (f : list Image → list Image) (m : Model)
  : Model :=
  {| Pods := Pods m; Images := Images m;
     ImageScanQueue := f (ImageScanQueue m);
     ConcurrentScanLimit := ConcurrentScanLimit m |}.

Definition withConcurrentScanLimit (limit : Z) (m : Model) : Model :=
  {| Pods := Pods m; Images := Images m;
     ImageScanQueue := ImageScanQueue m;
     ConcurrentScanLimit := limit |}.

(** [safeGet] followed by the rest of the method: a missing record
    panics. *)
Definition addImageToQueue (image : Image) (m : Model) : Result unit :=
  match Images m !! image with
  | None => Panics
  | Some results =>
      match ImageScanResults_ScanStatus results with
      | ScanStatusNotScanned | ScanStatusError =>
          Returned tt
            (withImageScanQueue (λ q, q ++ [image])
               (withImages (insert image
                              (setScanStatus ScanStatusInQueue results)) m))
      | _ => Panics
      end
  end.

Definition getNextImageFromQueue (m : Model) : Result (option Image) :=
  match ImageScanQueue m with
  | [] => Returned None m
  | first :: rest =>
      match Images m !! first with
      | None => Panics
      | Some results =>
          if decide (ImageScanResults_ScanStatus results = ScanStatusInQueue)
          then Returned (Some first)
                 (withImageScanQueue (λ _, rest)
                    (withImages
                       (insert first
                          (setScanStatus ScanStatusRunningScanClient
                             results)) m))
          else Panics
      end
  end.

Definition errorRunningScanClient (image : Image) (m : Model)
  : Result unit :=
  match Images m !! image with
  | None => Panics
  | Some results =>
      if decide (ImageScanResults_ScanStatus results
                 = ScanStatusRunningScanClient)
      then addImageToQueue image
             (withImages (insert image
                            (setScanStatus ScanStatusError results)) m)
      else Panics
  end.

Definition finishRunningScanClient (image : Image) (m : Model)
  : Result unit :=
  match Images m !! image with
  | None => Panics
  | Some results =>
      if decide (ImageScanResults_ScanStatus results
                 = ScanStatusRunningScanClient)
      then Returned tt
             (withImages (insert image
                            (setScanStatus ScanStatusRunningHubScan
                               results)) m)
      else Panics
  end.

Definition isInProgress (st : ScanStatus) : bool :=
  match st with
  | ScanStatusRunningScanClient | ScanStatusRunningHubScan => true
  | _ => false
  end.

Definition inProgressScanJobs (m : Model) : list Image :=
  foldl (λ inProgressImages (kv : Image * ImageScanResults),
           if isInProgress (ImageScanResults_ScanStatus kv.2)
           then inProgressImages ++ [kv.1] else inProgressImages)
        [] (map_to_list (Images m)).

Definition inProgressScanCount (m : Model) : Z :=
  Z.of_nat (length (inProgressScanJobs m)).

Definition inProgress (kv : Image * ImageScanResults) : Prop :=
  isInProgress (ImageScanResults_ScanStatus kv.2) = true.

Global Instance inProgress_dec kv : Decision (inProgress kv).
Proof. unfold inProgress. apply _. Defined.

(** The same result with the limit of its model replaced. *)
Definition resultWithLimit {A} (limit : Z) (r : Result A) : Result A :=
  match r with
  | Returned a m => Returned a (withConcurrentScanLimit limit m)
  | Panics => Panics
  end.

End model.

Arguments Model Image Pod {_ _}.
Arguments Returned {Image Pod _ _ A} a m.
Arguments Panics {Image Pod _ _ A}.

(** One image waiting in the queue of a model whose limit is zero. *)
Definition waitingModel : Model string unit :=
  {| Pods := ∅;
     Images := {[ "image" := {| ImageScanResults_ScanStatus :=
                                   ScanStatusInQueue;
                                 ImageScanResults_ScanResults := None |} ]};
     ImageScanQueue := ["image"];
     ConcurrentScanLimit := 0 |}.

End legacy.

(** * Proofs *)

(** ** Unfolding the monad *)

Lemma bind_Ok {A B} (c : M A) (k : A → M B) m a m' :
  c m = Ok a m' → (c ≫= k) m = k a m'.
Proof. intros H. unfold mbind, M_bind, bind. by rewrite H. Qed.

Lemma bind_Panicked {A B} (c : M A) (k : A → M B) m site m' :
  c m = Panicked site m' → (c ≫= k) m = Panicked site m'.
Proof. intros H. unfold mbind, M_bind, bind. by rewrite H. Qed.

Lemma bind_inv_Ok {A B} (c : M A) (k : A → M B) m b m'' :
  (c ≫= k) m = Ok b m'' → ∃ a m', c m = Ok a m' ∧ k a m' = Ok b m''.
Proof.
  unfold mbind, M_bind, bind. destruct (c m) as [a m'|site m']; [|done].
  intros H. by exists a, m'.
Qed.

Ltac unfold_M :=
  unfold mbind, M_bind, mret, M_ret, bind, ret, panic, modify, discard in *.

(** ** Counting the scans in progress *)

Section counting.
Context (P : string * ImageInfo → Prop) `{!∀ kv, Decision (P kv)}.

Lemma countP_empty : countP P ∅ = 0%nat.
Proof. unfold countP. by rewrite map_to_list_empty. Qed.

Lemma countP_insert_None imgs k x :
  imgs !! k = None →
  countP P (<[k:=x]> imgs) = (ind P k x + countP P imgs)%nat.
Proof.
  intros Hk. unfold countP, ind.
  rewrite (map_to_list_insert imgs k x Hk), filter_cons.
  by destruct (decide (P (k, x))).
Qed.

Lemma countP_delete imgs k y :
  imgs !! k = Some y →
  countP P imgs = (ind P k y + countP P (delete k imgs))%nat.
Proof.
  intros Hk. rewrite <-(countP_insert_None (delete k imgs) k y).
  - by rewrite insert_delete_id.
  - apply lookup_delete_eq.
Qed.

Lemma countP_insert_Some imgs k x y :
  imgs !! k = Some y →
  (countP P (<[k:=x]> imgs) + ind P k y
   = countP P imgs + ind P k x)%nat.
Proof.
  intros Hk. rewrite (countP_delete imgs k y Hk).
  rewrite <-(insert_delete_eq imgs k x).
  rewrite countP_insert_None by apply lookup_delete_eq. lia.
Qed.
End counting.

Lemma inProgressScanJobs_length m :
  length (inProgressScanJobs m) = activeScanCount m.
Proof.
  unfold inProgressScanJobs, activeScanCount, countP.
  generalize (map_to_list (Images m)). intros l.
  assert (∀ acc : list string,
    length (foldl (λ inProgressShas (kv : string * ImageInfo),
                     if isInProgress (ImageInfo_ScanStatus kv.2)
                     then inProgressShas ++ [kv.1] else inProgressShas) acc l)
    = (length acc + length (filter inProgress l))%nat) as Hgen.
  { induction l as [|kv l IH]; intros acc; simpl; [lia|].
    rewrite IH, filter_cons.
    destruct (isInProgress (ImageInfo_ScanStatus kv.2)) eqn:E.
    - rewrite decide_True by done. rewrite length_app. simpl. lia.
    - rewrite decide_False by (unfold inProgress; congruence). lia. }
  apply (Hgen []).
Qed.

Lemma inProgressScanCount_spec m :
  inProgressScanCount m = Z.of_nat (activeScanCount m).
Proof. unfold inProgressScanCount. by rewrite inProgressScanJobs_length. Qed.

(** ** What each method computes *)

Lemma safeGet_Some sha m info :
  Images m !! sha = Some info → safeGet sha m = Ok info m.
Proof. intros H. unfold safeGet. by rewrite H. Qed.

Lemma safeGet_None sha m :
  Images m !! sha = None → safeGet sha m = Panicked (PanicImageMissing sha) m.
Proof. intros H. unfold safeGet. by rewrite H. Qed.

Lemma addImageToHubCheckQueue_eq sha m :
  addImageToHubCheckQueue sha m =
  match Images m !! sha with
  | None => Panicked (PanicImageMissing sha) m
  | Some info =>
      match ImageInfo_ScanStatus info with
      | ScanStatusUnknown | ScanStatusError =>
          Ok tt {| Pods := Pods m;
                   Images := <[sha := setScanStatus ScanStatusInHubCheckQueue
                                        info]> (Images m);
                   ImageScanQueue := ImageScanQueue m;
                   ImageHubCheckQueue := ImageHubCheckQueue m ++ [image info];
                   ConcurrentScanLimit := ConcurrentScanLimit m |}
      | st => Panicked (PanicAddToHubCheckQueue sha st) m
      end
  end.
Proof.
  unfold addImageToHubCheckQueue, safeGet. unfold_M.
  destruct (Images m !! sha) as [info|]; [|done].
  by destruct (ImageInfo_ScanStatus info).
Qed.

Lemma addImageToScanQueue_eq sha m :
  addImageToScanQueue sha m =
  match Images m !! sha with
  | None => Panicked (PanicImageMissing sha) m
  | Some info =>
      match ImageInfo_ScanStatus info with
      | ScanStatusCheckingHub | ScanStatusError =>
          Ok tt {| Pods := Pods m;
                   Images := <[sha := setScanStatus ScanStatusInQueue info]>
                               (Images m);
                   ImageScanQueue := ImageScanQueue m ++ [image info];
                   ImageHubCheckQueue := ImageHubCheckQueue m;
                   ConcurrentScanLimit := ConcurrentScanLimit m |}
      | st => Panicked (PanicAddToScanQueue sha st) m
      end
  end.
Proof.
  unfold addImageToScanQueue, safeGet. unfold_M.
  destruct (Images m !! sha) as [info|]; [|done].
  by destruct (ImageInfo_ScanStatus info).
Qed.

Lemma AddImage_eq img m :
  AddImage img m =
  match Images m !! Sha img with
  | Some _ => Ok tt m
  | None =>
      Ok tt {| Pods := Pods m;
               Images := <[Sha img := setScanStatus ScanStatusInHubCheckQueue
                                        (NewImageInfo (Sha img) (Name img))]>
                           (Images m);
               ImageScanQueue := ImageScanQueue m;
               ImageHubCheckQueue := ImageHubCheckQueue m ++ [img];
               ConcurrentScanLimit := ConcurrentScanLimit m |}
  end.
Proof.
  unfold AddImage. destruct (Images m !! Sha img) as [info|] eqn:E; [done|].
  unfold_M. rewrite addImageToHubCheckQueue_eq. cbn.
  rewrite lookup_insert_eq. cbn. rewrite insert_insert_eq.
  by destruct img.
Qed.

Lemma getNextImageFromHubCheckQueue_eq m :
  getNextImageFromHubCheckQueue m =
  match ImageHubCheckQueue m with
  | [] => Ok None m
  | first :: rest =>
      match Images m !! Sha first with
      | None => Panicked (PanicImageMissing (Sha first)) m
      | Some info =>
          if decide (ImageInfo_ScanStatus info = ScanStatusInHubCheckQueue)
          then Ok (Some first)
                 {| Pods := Pods m;
                    Images := <[Sha first := setScanStatus
                                  ScanStatusCheckingHub info]> (Images m);
                    ImageScanQueue := ImageScanQueue m;
                    ImageHubCheckQueue := rest;
                    ConcurrentScanLimit := ConcurrentScanLimit m |}
          else Panicked (PanicStartHubCheck (Sha first)
                           (ImageInfo_ScanStatus info)) m
      end
  end.
Proof.
  unfold getNextImageFromHubCheckQueue, safeGet. unfold_M.
  destruct (ImageHubCheckQueue m) as [|first rest]; [done|].
  destruct (Images m !! Sha first) as [info|]; [|done].
  by destruct (decide _).
Qed.

Lemma getNextImageFromScanQueue_eq m :
  getNextImageFromScanQueue m =
  if decide (Z.of_nat (activeScanCount m) >= ConcurrentScanLimit m)
  then Ok None m
  else
    match ImageScanQueue m with
    | [] => Ok None m
    | first :: rest =>
        match Images m !! Sha first with
        | None => Panicked (PanicImageMissing (Sha first)) m
        | Some info =>
            if decide (ImageInfo_ScanStatus info = ScanStatusInQueue)
            then Ok (Some first)
                   {| Pods := Pods m;
                      Images := <[Sha first := setScanStatus
                                    ScanStatusRunningScanClient info]>
                                  (Images m);
                      ImageScanQueue := rest;
                      ImageHubCheckQueue := ImageHubCheckQueue m;
                      ConcurrentScanLimit := ConcurrentScanLimit m |}
            else Panicked (PanicStartScan (Sha first)
                             (ImageInfo_ScanStatus info)) m
        end
    end.
Proof.
  unfold getNextImageFromScanQueue, safeGet. unfold_M.
  rewrite inProgressScanCount_spec.
  destruct (decide _); [done|].
  destruct (ImageScanQueue m) as [|first rest]; [done|].
  destruct (Images m !! Sha first) as [info|]; [|done].
  by destruct (decide _).
Qed.

Lemma errorRunningScanClient_eq img m :
  errorRunningScanClient img m =
  match Images m !! Sha img with
  | None => Panicked (PanicImageMissing (Sha img)) m
  | Some info =>
      if decide (ImageInfo_ScanStatus info = ScanStatusRunningScanClient)
      then Ok tt {| Pods := Pods m;
                    Images := <[Sha img := setScanStatus ScanStatusInQueue
                                             info]> (Images m);
                    ImageScanQueue := ImageScanQueue m ++ [image info];
                    ImageHubCheckQueue := ImageHubCheckQueue m;
                    ConcurrentScanLimit := ConcurrentScanLimit m |}
      else Panicked (PanicErrorScanClient (Sha img)
                       (ImageInfo_ScanStatus info)) m
  end.
Proof.
  unfold errorRunningScanClient, safeGet. unfold_M.
  destruct (Images m !! Sha img) as [info|]; [|done].
  destruct (decide _); [|done].
  rewrite addImageToScanQueue_eq. cbn. rewrite lookup_insert_eq. cbn.
  by rewrite insert_insert_eq.
Qed.

Lemma finishRunningScanClient_eq img m :
  finishRunningScanClient img m =
  match Images m !! Sha img with
  | None => Panicked (PanicImageMissing (Sha img)) m
  | Some info =>
      if decide (ImageInfo_ScanStatus info = ScanStatusRunningScanClient)
      then Ok tt (withImages (insert (Sha img)
                    (setScanStatus ScanStatusRunningHubScan info)) m)
      else Panicked (PanicFinishScanClient (Sha img)
                       (ImageInfo_ScanStatus info)) m
  end.
Proof.
  unfold finishRunningScanClient, safeGet. unfold_M.
  destruct (Images m !! Sha img) as [info|]; [|done].
  by destruct (decide _).
Qed.

Lemma ReportAnalysisComplete_eq img r m :
  ReportAnalysisComplete img r m =
  match Images m !! Sha img with
  | None => Panicked (PanicImageMissing (Sha img)) m
  | Some info =>
      if decide (ImageInfo_ScanStatus info = ScanStatusRunningHubScan)
      then Ok tt (withImages (insert (Sha img)
                    (setScanResults (Some r)
                       (setScanStatus ScanStatusComplete info))) m)
      else Panicked (PanicFinishHubScan (Sha img)
                       (ImageInfo_ScanStatus info)) m
  end.
Proof.
  unfold ReportAnalysisComplete, safeGet. unfold_M.
  destruct (Images m !! Sha img) as [info|]; [|done].
  by destruct (decide _).
Qed.

(** ** The queue discipline is an invariant *)

Lemma statusOf_insert_eq m sha info :
  statusOf (withImages (insert sha info) m) sha
  = Some (ImageInfo_ScanStatus info).
Proof. unfold statusOf. cbn. by rewrite lookup_insert_eq. Qed.

Lemma statusOf_insert_ne m sha sha' info :
  sha ≠ sha' →
  statusOf (withImages (insert sha info) m) sha' = statusOf m sha'.
Proof. intros. unfold statusOf. cbn. by rewrite lookup_insert_ne. Qed.

Lemma consistent_not_queued m sha :
  consistent m →
  statusOf m sha ≠ Some ScanStatusInHubCheckQueue →
  statusOf m sha ≠ Some ScanStatusInQueue →
  sha ∉ Sha <$> (ImageHubCheckQueue m ++ ImageScanQueue m).
Proof.
  intros Hc Hhub Hscan Hin.
  apply list_elem_of_fmap in Hin as (img & -> & Hin).
  apply elem_of_app in Hin as [Hin|Hin].
  - by apply Hhub, consistent_hub.
  - by apply Hscan, consistent_scan.
Qed.

Lemma consistent_new limit : consistent (NewModel limit).
Proof.
  split; cbn.
  - intros sha info H. by rewrite lookup_empty in H.
  - constructor.
  - intros img H. by apply elem_of_nil in H.
  - intros img H. by apply elem_of_nil in H.
Qed.

Lemma consistent_withPods f m : consistent m → consistent (withPods f m).
Proof. intros [? ? ? ?]. by split. Qed.

Lemma consistent_update m sha info' :
  consistent m →
  ImageInfo_ImageSha info' = sha →
  sha ∉ Sha <$> (ImageHubCheckQueue m ++ ImageScanQueue m) →
  consistent (withImages (insert sha info') m).
Proof.
  intros Hc Hkey Hnq.
  assert (∀ img, img ∈ ImageHubCheckQueue m ++ ImageScanQueue m →
                 sha ≠ Sha img) as Hne.
  { intros img Hin ->. apply Hnq, list_elem_of_fmap. eauto. }
  split.
  - intros k info. cbn. rewrite lookup_insert. case_decide; simplify_eq.
    + by intros [= <-].
    + by apply consistent_keys.
  - cbn. by apply consistent_nodup.
  - intros img Hin. cbn in Hin. rewrite statusOf_insert_ne.
    + by apply consistent_hub.
    + apply Hne, elem_of_app. by left.
  - intros img Hin. cbn in Hin. rewrite statusOf_insert_ne.
    + by apply consistent_scan.
    + apply Hne, elem_of_app. by right.
Qed.

Lemma consistent_push_hub m img :
  consistent m →
  statusOf m (Sha img) = Some ScanStatusInHubCheckQueue →
  Sha img ∉ Sha <$> (ImageHubCheckQueue m ++ ImageScanQueue m) →
  consistent (withImageHubCheckQueue (λ q, q ++ [img]) m).
Proof.
  intros Hc Hst Hnq. split; cbn.
  - by apply (consistent_keys m).
  - rewrite <-(assoc_L (++)). rewrite fmap_app. cbn.
    rewrite <-Permutation_middle. rewrite <-fmap_app.
    apply NoDup_cons. split; [done|]. by apply (consistent_nodup m).
  - intros i [Hin| ->%list_elem_of_singleton]%elem_of_app; [|done].
    by apply (consistent_hub m).
  - by apply (consistent_scan m).
Qed.

Lemma consistent_push_scan m img :
  consistent m →
  statusOf m (Sha img) = Some ScanStatusInQueue →
  Sha img ∉ Sha <$> (ImageHubCheckQueue m ++ ImageScanQueue m) →
  consistent (withImageScanQueue (λ q, q ++ [img]) m).
Proof.
  intros Hc Hst Hnq. split; cbn.
  - by apply (consistent_keys m).
  - rewrite (assoc_L (++)). rewrite fmap_app. cbn.
    rewrite <-Permutation_cons_append.
    apply NoDup_cons. split; [done|]. by apply (consistent_nodup m).
  - by apply (consistent_hub m).
  - intros i [Hin| ->%list_elem_of_singleton]%elem_of_app; [|done].
    by apply (consistent_scan m).
Qed.

Lemma consistent_pop_hub m first rest :
  consistent m →
  ImageHubCheckQueue m = first :: rest →
  consistent (withImageHubCheckQueue (λ _, rest) m)
  ∧ Sha first ∉ Sha <$> (rest ++ ImageScanQueue m).
Proof.
  intros Hc Hq. pose proof (consistent_nodup m Hc) as Hnd.
  rewrite Hq in Hnd. cbn in Hnd. apply NoDup_cons in Hnd as [Hnotin Hnd].
  split; [|done]. split; cbn.
  - by apply (consistent_keys m).
  - done.
  - intros img Hin. apply (consistent_hub m); [done|]. rewrite Hq. by right.
  - by apply (consistent_scan m).
Qed.

Lemma consistent_pop_scan m first rest :
  consistent m →
  ImageScanQueue m = first :: rest →
  consistent (withImageScanQueue (λ _, rest) m)
  ∧ Sha first ∉ Sha <$> (ImageHubCheckQueue m ++ rest).
Proof.
  intros Hc Hq. pose proof (consistent_nodup m Hc) as Hnd.
  rewrite Hq in Hnd. rewrite fmap_app in Hnd. cbn in Hnd.
  rewrite <-Permutation_middle in Hnd.
  apply NoDup_cons in Hnd as [Hnotin Hnd]. rewrite <-fmap_app in Hnotin, Hnd.
  split; [|done]. split; cbn.
  - by apply (consistent_keys m).
  - done.
  - by apply (consistent_hub m).
  - intros img Hin. apply (consistent_scan m); [done|]. rewrite Hq. by right.
Qed.

Lemma statusOf_Some m sha info :
  Images m !! sha = Some info →
  statusOf m sha = Some (ImageInfo_ScanStatus info).
Proof. intros H. unfold statusOf. by rewrite H. Qed.

Lemma statusOf_None m sha : Images m !! sha = None → statusOf m sha = None.
Proof. intros H. unfold statusOf. by rewrite H. Qed.

(** A record whose status is not one of the two queued ones is in no
    queue. *)
Lemma not_queued_of_status m sha info :
  consistent m →
  Images m !! sha = Some info →
  ImageInfo_ScanStatus info ≠ ScanStatusInHubCheckQueue →
  ImageInfo_ScanStatus info ≠ ScanStatusInQueue →
  sha ∉ Sha <$> (ImageHubCheckQueue m ++ ImageScanQueue m).
Proof.
  intros Hc Hl H1 H2. apply consistent_not_queued; [done| |];
    rewrite (statusOf_Some m sha info Hl); congruence.
Qed.

Lemma not_queued_of_absent m sha :
  consistent m →
  Images m !! sha = None →
  sha ∉ Sha <$> (ImageHubCheckQueue m ++ ImageScanQueue m).
Proof.
  intros Hc Hl. apply consistent_not_queued; [done| |];
    by rewrite (statusOf_None m sha Hl).
Qed.

Lemma addImageToHubCheckQueue_consistent sha m m' :
  consistent m → addImageToHubCheckQueue sha m = Ok tt m' → consistent m'.
Proof.
  intros Hc. rewrite addImageToHubCheckQueue_eq.
  destruct (Images m !! sha) as [info|] eqn:Hl; [|done].
  pose proof (consistent_keys m Hc sha info Hl) as Hkey.
  assert (ImageInfo_ScanStatus info = ScanStatusUnknown
          ∨ ImageInfo_ScanStatus info = ScanStatusError →
          consistent
            (withImageHubCheckQueue (λ q, q ++ [image info])
               (withImages (insert sha
                  (setScanStatus ScanStatusInHubCheckQueue info)) m))) as Hgo.
  { intros Hst. apply consistent_push_hub.
    - apply consistent_update; [done|done|].
      apply (not_queued_of_status m sha info); [done|done| |];
        destruct Hst as [-> | ->]; done.
    - cbn [image Sha]. rewrite Hkey. apply statusOf_insert_eq.
    - cbn [image Sha]. rewrite Hkey.
      apply (not_queued_of_status m sha info); [done|done| |];
        destruct Hst as [-> | ->]; done. }
  destruct (ImageInfo_ScanStatus info); intros [= <-]; try done;
    apply Hgo; auto.
Qed.

Lemma addImageToScanQueue_consistent sha m m' :
  consistent m → addImageToScanQueue sha m = Ok tt m' → consistent m'.
Proof.
  intros Hc. rewrite addImageToScanQueue_eq.
  destruct (Images m !! sha) as [info|] eqn:Hl; [|done].
  pose proof (consistent_keys m Hc sha info Hl) as Hkey.
  assert (ImageInfo_ScanStatus info = ScanStatusCheckingHub
          ∨ ImageInfo_ScanStatus info = ScanStatusError →
          consistent
            (withImageScanQueue (λ q, q ++ [image info])
               (withImages (insert sha
                  (setScanStatus ScanStatusInQueue info)) m))) as Hgo.
  { intros Hst. apply consistent_push_scan.
    - apply consistent_update; [done|done|].
      apply (not_queued_of_status m sha info); [done|done| |];
        destruct Hst as [-> | ->]; done.
    - cbn [image Sha]. rewrite Hkey. apply statusOf_insert_eq.
    - cbn [image Sha]. rewrite Hkey.
      apply (not_queued_of_status m sha info); [done|done| |];
        destruct Hst as [-> | ->]; done. }
  destruct (ImageInfo_ScanStatus info); intros [= <-]; try done;
    apply Hgo; auto.
Qed.

Lemma AddImage_consistent img m m' :
  consistent m → AddImage img m = Ok tt m' → consistent m'.
Proof.
  intros Hc. rewrite AddImage_eq.
  destruct (Images m !! Sha img) as [info|] eqn:Hl; intros [= <-]; [done|].
  pose proof (not_queued_of_absent m (Sha img) Hc Hl) as Hnq.
  change (consistent
            (withImageHubCheckQueue (λ q, q ++ [img])
               (withImages (insert (Sha img)
                  (setScanStatus ScanStatusInHubCheckQueue
                     (NewImageInfo (Sha img) (Name img)))) m))).
  apply consistent_push_hub.
  - by apply consistent_update.
  - apply statusOf_insert_eq.
  - done.
Qed.

Lemma getNextImageFromHubCheckQueue_consistent m a m' :
  consistent m → getNextImageFromHubCheckQueue m = Ok a m' → consistent m'.
Proof.
  intros Hc. rewrite getNextImageFromHubCheckQueue_eq.
  destruct (ImageHubCheckQueue m) as [|first rest] eqn:Hq;
    [by intros [= <- <-]|].
  destruct (Images m !! Sha first) as [info|] eqn:Hl; [|done].
  destruct (decide _) as [Hst|]; [|done]. intros [= <- <-].
  destruct (consistent_pop_hub m first rest Hc Hq) as [Hc' Hnq].
  change (consistent
            (withImages (insert (Sha first)
               (setScanStatus ScanStatusCheckingHub info))
               (withImageHubCheckQueue (λ _, rest) m))).
  apply consistent_update; [done| |done].
  exact (consistent_keys m Hc _ info Hl).
Qed.

Lemma getNextImageFromScanQueue_consistent m a m' :
  consistent m → getNextImageFromScanQueue m = Ok a m' → consistent m'.
Proof.
  intros Hc. rewrite getNextImageFromScanQueue_eq.
  destruct (decide _); [by intros [= <- <-]|].
  destruct (ImageScanQueue m) as [|first rest] eqn:Hq;
    [by intros [= <- <-]|].
  destruct (Images m !! Sha first) as [info|] eqn:Hl; [|done].
  destruct (decide _) as [Hst|]; [|done]. intros [= <- <-].
  destruct (consistent_pop_scan m first rest Hc Hq) as [Hc' Hnq].
  change (consistent
            (withImages (insert (Sha first)
               (setScanStatus ScanStatusRunningScanClient info))
               (withImageScanQueue (λ _, rest) m))).
  apply consistent_update; [done| |done].
  exact (consistent_keys m Hc _ info Hl).
Qed.

Lemma errorRunningScanClient_consistent img m m' :
  consistent m → errorRunningScanClient img m = Ok tt m' → consistent m'.
Proof.
  intros Hc. rewrite errorRunningScanClient_eq.
  destruct (Images m !! Sha img) as [info|] eqn:Hl; [|done].
  destruct (decide _) as [Hst|]; [|done]. intros [= <-].
  pose proof (consistent_keys m Hc _ info Hl) as Hkey.
  assert (Sha img ∉ Sha <$> (ImageHubCheckQueue m ++ ImageScanQueue m))
    as Hnq.
  { apply (not_queued_of_status m _ info); [done|done| |]; by rewrite Hst. }
  change (consistent
            (withImageScanQueue (λ q, q ++ [image info])
               (withImages (insert (Sha img)
                  (setScanStatus ScanStatusInQueue info)) m))).
  apply consistent_push_scan.
  - by apply consistent_update.
  - cbn [image Sha]. rewrite Hkey. apply statusOf_insert_eq.
  - cbn [image Sha]. by rewrite Hkey.
Qed.

Lemma finishRunningScanClient_consistent img m m' :
  consistent m → finishRunningScanClient img m = Ok tt m' → consistent m'.
Proof.
  intros Hc. rewrite finishRunningScanClient_eq.
  destruct (Images m !! Sha img) as [info|] eqn:Hl; [|done].
  destruct (decide _) as [Hst|]; [|done]. intros [= <-].
  apply consistent_update; [done|exact (consistent_keys m Hc _ info Hl)|].
  apply (not_queued_of_status m _ info); [done|done| |]; by rewrite Hst.
Qed.

Lemma ReportAnalysisComplete_consistent img r m m' :
  consistent m → ReportAnalysisComplete img r m = Ok tt m' → consistent m'.
Proof.
  intros Hc. rewrite ReportAnalysisComplete_eq.
  destruct (Images m !! Sha img) as [info|] eqn:Hl; [|done].
  destruct (decide _) as [Hst|]; [|done]. intros [= <-].
  apply consistent_update; [done|exact (consistent_keys m Hc _ info Hl)|].
  apply (not_queued_of_status m _ info); [done|done| |]; by rewrite Hst.
Qed.

(** A loop preserves what its body preserves. *)
Lemma forEach_preserves {A} (I : Model → Prop) (body : A → M unit) l :
  (∀ x m m', I m → body x m = Ok tt m' → I m') →
  ∀ m m', I m → forEach l body m = Ok tt m' → I m'.
Proof.
  intros Hbody. induction l as [|x l IH]; intros m m' HI; cbn.
  - by intros [= <-].
  - intros (u & m1 & H1 & H2)%bind_inv_Ok. destruct u. eauto.
Qed.

Lemma AddPod_consistent newPod m m' :
  consistent m → AddPod newPod m = Ok tt m' → consistent m'.
Proof.
  intros Hc (u & m1 & H1 & H2)%bind_inv_Ok. destruct u.
  injection H2 as <-. apply consistent_withPods.
  revert H1. apply forEach_preserves; [|done].
  intros c ? ?. apply AddImage_consistent.
Qed.

Lemma discard_inv {A} (c : M A) m m' :
  discard c m = Ok tt m' → ∃ a, c m = Ok a m'.
Proof.
  intros (a & m1 & H1 & H2)%bind_inv_Ok. injection H2 as <-. eauto.
Qed.

Lemma run_consistent op m m' :
  consistent m → run op m = Ok tt m' → consistent m'.
Proof.
  intros Hc. destruct op; cbn [run].
  - by apply AddPod_consistent.
  - intros [= <-]. by apply consistent_withPods.
  - by apply AddImage_consistent.
  - by apply addImageToHubCheckQueue_consistent.
  - by apply addImageToScanQueue_consistent.
  - intros [a H]%discard_inv.
    by eapply getNextImageFromHubCheckQueue_consistent.
  - intros [a H]%discard_inv. by eapply getNextImageFromScanQueue_consistent.
  - by apply errorRunningScanClient_consistent.
  - by apply finishRunningScanClient_consistent.
  - by apply ReportAnalysisComplete_consistent.
Qed.

Lemma reachable_consistent limit m : reachable limit m → consistent m.
Proof.
  induction 1 as [|m op m' _ IH Hrun].
  - apply consistent_new.
  - by eapply run_consistent.
Qed.

(** ** The concurrency gate is an invariant *)

Lemma ind_inProgress k x :
  ind inProgress k x
  = if isInProgress (ImageInfo_ScanStatus x) then 1%nat else 0%nat.
Proof.
  unfold ind. destruct (decide (inProgress (k, x))) as [H|H];
    unfold inProgress in H; cbn in H.
  - by rewrite H.
  - by destruct (isInProgress (ImageInfo_ScanStatus x)).
Qed.

Lemma activeScanCount_update m sha info info' :
  Images m !! sha = Some info →
  (activeScanCount (withImages (insert sha info') m)
   + (if isInProgress (ImageInfo_ScanStatus info) then 1 else 0)
   = activeScanCount m
     + (if isInProgress (ImageInfo_ScanStatus info') then 1 else 0))%nat.
Proof.
  intros Hl. unfold activeScanCount. cbn.
  rewrite <-!(ind_inProgress sha). by apply countP_insert_Some.
Qed.

Lemma activeScanCount_fresh m sha info' :
  Images m !! sha = None →
  activeScanCount (withImages (insert sha info') m)
  = ((if isInProgress (ImageInfo_ScanStatus info') then 1 else 0)
     + activeScanCount m)%nat.
Proof.
  intros Hl. unfold activeScanCount. cbn.
  rewrite <-(ind_inProgress sha). by apply countP_insert_None.
Qed.

(** Only a dequeue from the scan queue raises the number of scans in
    progress, and it does so by one, when the gate is open. *)
Lemma AddImage_count img m m' :
  AddImage img m = Ok tt m' →
  ConcurrentScanLimit m' = ConcurrentScanLimit m
  ∧ activeScanCount m' = activeScanCount m.
Proof.
  rewrite AddImage_eq.
  destruct (Images m !! Sha img) as [info|] eqn:Hl; intros [= <-]; [done|].
  split; [done|].
  pose proof (activeScanCount_fresh m (Sha img)
    (setScanStatus ScanStatusInHubCheckQueue
       (NewImageInfo (Sha img) (Name img))) Hl) as Hcnt.
  cbn in Hcnt; unfold activeScanCount in *; cbn in *; lia.
Qed.

Lemma addImageToHubCheckQueue_count sha m m' :
  addImageToHubCheckQueue sha m = Ok tt m' →
  ConcurrentScanLimit m' = ConcurrentScanLimit m
  ∧ activeScanCount m' = activeScanCount m.
Proof.
  rewrite addImageToHubCheckQueue_eq.
  destruct (Images m !! sha) as [info|] eqn:Hl; [|done].
  pose proof (activeScanCount_update m sha info
    (setScanStatus ScanStatusInHubCheckQueue info) Hl) as Hcnt.
  destruct (ImageInfo_ScanStatus info); intros [= <-]; (split; [done|]);
    cbn in Hcnt; unfold activeScanCount in *; cbn in *; lia.
Qed.

Lemma addImageToScanQueue_count sha m m' :
  addImageToScanQueue sha m = Ok tt m' →
  ConcurrentScanLimit m' = ConcurrentScanLimit m
  ∧ activeScanCount m' = activeScanCount m.
Proof.
  rewrite addImageToScanQueue_eq.
  destruct (Images m !! sha) as [info|] eqn:Hl; [|done].
  pose proof (activeScanCount_update m sha info
    (setScanStatus ScanStatusInQueue info) Hl) as Hcnt.
  destruct (ImageInfo_ScanStatus info); intros [= <-]; (split; [done|]);
    cbn in Hcnt; unfold activeScanCount in *; cbn in *; lia.
Qed.

Lemma getNextImageFromHubCheckQueue_count m a m' :
  getNextImageFromHubCheckQueue m = Ok a m' →
  ConcurrentScanLimit m' = ConcurrentScanLimit m
  ∧ activeScanCount m' = activeScanCount m.
Proof.
  rewrite getNextImageFromHubCheckQueue_eq.
  destruct (ImageHubCheckQueue m) as [|first rest] eqn:Hq;
    [by intros [= <- <-]|].
  destruct (Images m !! Sha first) as [info|] eqn:Hl; [|done].
  destruct (decide _) as [Hst|]; [|done]. intros [= <- <-].
  pose proof (activeScanCount_update m (Sha first) info
    (setScanStatus ScanStatusCheckingHub info) Hl) as Hcnt.
  rewrite Hst in Hcnt. split; [done|].
  cbn in Hcnt; unfold activeScanCount in *; cbn in *; lia.
Qed.

Lemma getNextImageFromScanQueue_count m a m' :
  getNextImageFromScanQueue m = Ok a m' →
  ConcurrentScanLimit m' = ConcurrentScanLimit m
  ∧ (m' = m
     ∨ Z.of_nat (activeScanCount m) < ConcurrentScanLimit m
       ∧ activeScanCount m' = S (activeScanCount m)).
Proof.
  rewrite getNextImageFromScanQueue_eq.
  destruct (decide _) as [|Hgate]; [intros [= <- <-]; auto|].
  destruct (ImageScanQueue m) as [|first rest] eqn:Hq;
    [intros [= <- <-]; auto|].
  destruct (Images m !! Sha first) as [info|] eqn:Hl; [|done].
  destruct (decide _) as [Hst|]; [|done]. intros [= <- <-].
  pose proof (activeScanCount_update m (Sha first) info
    (setScanStatus ScanStatusRunningScanClient info) Hl) as Hcnt.
  rewrite Hst in Hcnt. split; [done|]. right. split; [lia|].
  cbn in Hcnt; unfold activeScanCount in *; cbn in *; lia.
Qed.

Lemma errorRunningScanClient_count img m m' :
  errorRunningScanClient img m = Ok tt m' →
  ConcurrentScanLimit m' = ConcurrentScanLimit m
  ∧ S (activeScanCount m') = activeScanCount m.
Proof.
  rewrite errorRunningScanClient_eq.
  destruct (Images m !! Sha img) as [info|] eqn:Hl; [|done].
  destruct (decide _) as [Hst|]; [|done]. intros [= <-].
  pose proof (activeScanCount_update m (Sha img) info
    (setScanStatus ScanStatusInQueue info) Hl) as Hcnt.
  rewrite Hst in Hcnt. split; [done|].
  cbn in Hcnt; unfold activeScanCount in *; cbn in *; lia.
Qed.

Lemma finishRunningScanClient_count img m m' :
  finishRunningScanClient img m = Ok tt m' →
  ConcurrentScanLimit m' = ConcurrentScanLimit m
  ∧ activeScanCount m' = activeScanCount m.
Proof.
  rewrite finishRunningScanClient_eq.
  destruct (Images m !! Sha img) as [info|] eqn:Hl; [|done].
  destruct (decide _) as [Hst|]; [|done]. intros [= <-].
  pose proof (activeScanCount_update m (Sha img) info
    (setScanStatus ScanStatusRunningHubScan info) Hl) as Hcnt.
  rewrite Hst in Hcnt. split; [done|].
  cbn in Hcnt; unfold activeScanCount in *; cbn in *; lia.
Qed.

Lemma ReportAnalysisComplete_count img r m m' :
  ReportAnalysisComplete img r m = Ok tt m' →
  ConcurrentScanLimit m' = ConcurrentScanLimit m
  ∧ S (activeScanCount m') = activeScanCount m.
Proof.
  rewrite ReportAnalysisComplete_eq.
  destruct (Images m !! Sha img) as [info|] eqn:Hl; [|done].
  destruct (decide _) as [Hst|]; [|done]. intros [= <-].
  pose proof (activeScanCount_update m (Sha img) info
    (setScanResults (Some r) (setScanStatus ScanStatusComplete info)) Hl)
    as Hcnt.
  rewrite Hst in Hcnt. split; [done|].
  cbn in Hcnt; unfold activeScanCount in *; cbn in *; lia.
Qed.

Lemma AddPod_count newPod m m' :
  AddPod newPod m = Ok tt m' →
  ConcurrentScanLimit m' = ConcurrentScanLimit m
  ∧ activeScanCount m' = activeScanCount m.
Proof.
  intros (u & m1 & H1 & H2)%bind_inv_Ok. destruct u. injection H2 as <-.
  change (ConcurrentScanLimit m1 = ConcurrentScanLimit m
          ∧ activeScanCount m1 = activeScanCount m).
  revert H1.
  apply (forEach_preserves
    (λ x, ConcurrentScanLimit x = ConcurrentScanLimit m
          ∧ activeScanCount x = activeScanCount m)); [|done].
  intros c x x' [HL HC] [HL' HC']%AddImage_count. split; congruence.
Qed.

Lemma run_withinCapacity limit op m m' :
  withinCapacity limit m → run op m = Ok tt m' → withinCapacity limit m'.
Proof.
  unfold withinCapacity. intros [HL HC]. destruct op; cbn [run].
  - intros [? ?]%AddPod_count. split; [congruence|lia].
  - by intros [= <-].
  - intros [? ?]%AddImage_count. split; [congruence|lia].
  - intros [? ?]%addImageToHubCheckQueue_count. split; [congruence|lia].
  - intros [? ?]%addImageToScanQueue_count. split; [congruence|lia].
  - intros [a [? ?]%getNextImageFromHubCheckQueue_count]%discard_inv.
    split; [congruence|lia].
  - intros [a [? Hcase]%getNextImageFromScanQueue_count]%discard_inv.
    split; [congruence|]. destruct Hcase as [-> | [? ?]]; lia.
  - intros [? ?]%errorRunningScanClient_count. split; [congruence|lia].
  - intros [? ?]%finishRunningScanClient_count. split; [congruence|lia].
  - intros [? ?]%ReportAnalysisComplete_count. split; [congruence|lia].
Qed.

Lemma reachable_withinCapacity limit m :
  0 <= limit → reachable limit m → withinCapacity limit m.
Proof.
  intros Hlimit. induction 1 as [|m op m' _ IH Hrun].
  - split; [done|]. unfold activeScanCount. cbn. by rewrite countP_empty.
  - by eapply run_withinCapacity.
Qed.

(** ** Runs of operations *)

Lemma forEach_app {A} (l1 l2 : list A) (body : A → M unit) m :
  forEach (l1 ++ l2) body m
  = match forEach l1 body m with
    | Ok _ m' => forEach l2 body m'
    | Panicked site m' => Panicked site m'
    end.
Proof.
  revert m. induction l1 as [|x l1 IH]; intros m; cbn; [done|].
  unfold mbind, M_bind, bind. destruct (body x m) as [u m1|]; [|done].
  apply IH.
Qed.

Lemma runAll_reachable limit ops m0 m :
  reachable limit m0 → runAll ops m0 = Ok tt m → reachable limit m.
Proof.
  unfold runAll. revert m0. induction ops as [|op ops IH]; intros m0 Hr; cbn.
  - by intros [= <-].
  - intros (u & m1 & H1 & H2)%bind_inv_Ok. destruct u.
    eapply IH; [|done]. by eapply reachable_step.
Qed.

Lemma countP_size (P : string * ImageInfo → Prop) `{!∀ kv, Decision (P kv)}
  (imgs : gmap string ImageInfo) :
  countP P imgs = size (filter P imgs).
Proof.
  induction imgs as [|k x imgs Hk _ IH] using map_first_key_ind.
  - by rewrite countP_empty, map_filter_empty, map_size_empty.
  - rewrite countP_insert_None by done. unfold ind.
    rewrite map_filter_insert. destruct (decide (P (k, x))).
    + rewrite map_size_insert_None; [by rewrite IH|].
      by rewrite map_lookup_filter_None_2; [|left].
    + by rewrite delete_id.
Qed.

(** ** The claims of the design document *)

(** C1. Admission respects capacity: for every limit [N >= 0], in every
    state reachable by the core operations the number of records whose
    status is RunningScanClient or RunningHubScan (which is what
    [inProgressScanCount] computes) is at most [N]; and whenever that number
    is at or above the limit, [getNextImageFromScanQueue] returns nil and
    leaves the model as it was, whatever the scan queue holds. *)
Theorem C1_admission_respects_capacity (N : Z) (m : Model) :
  0 <= N → reachable N m →
  inProgressScanCount m = Z.of_nat (size (filter inProgress (Images m)))
  ∧ inProgressScanCount m <= N
  ∧ ConcurrentScanLimit m = N
  ∧ (inProgressScanCount m >= N →
     getNextImageFromScanQueue m = Ok None m).
Proof.
  intros HN Hr.
  destruct (reachable_withinCapacity N m HN Hr) as [HL HC].
  rewrite inProgressScanCount_spec. repeat split.
  - unfold activeScanCount. by rewrite countP_size.
  - done.
  - done.
  - intros Hge. rewrite getNextImageFromScanQueue_eq.
    rewrite decide_True; [done|]. lia.
Qed.

Lemma busyModel_reachable : reachable 1 busyModel.
Proof.
  apply (runAll_reachable 1 (queuedOps ++ [OpGetNextImageFromScanQueue])
           (NewModel 1)); [constructor|].
  vm_compute. reflexivity.
Defined.

Lemma C1_witness :
  inProgressScanCount busyModel = 1
  ∧ ImageScanQueue busyModel = [imageB]
  ∧ getNextImageFromScanQueue busyModel = Ok None busyModel.
Proof.
  destruct (C1_admission_respects_capacity 1 busyModel) as (_ & _ & _ & H).
  - lia.
  - exact busyModel_reachable.
  - split; [vm_compute; reflexivity|]. split; [vm_compute; reflexivity|].
    apply H. vm_compute. discriminate.
Defined.

Lemma occurrences_fmap sha (q : list Image) :
  occurrences sha q = length (filter (λ s, s = sha) (Sha <$> q)).
Proof.
  unfold occurrences. induction q as [|img q IH]; [done|].
  cbn [fmap list_fmap]. rewrite !filter_cons.
  destruct (decide (Sha img = sha)); cbn; by rewrite IH.
Qed.

Lemma NoDup_filter_eq_length (l : list string) (a : string) :
  NoDup l → (length (filter (λ s, s = a) l) ≤ 1)%nat.
Proof.
  induction 1 as [|x l Hx Hnd IH]; [cbn; lia|].
  rewrite filter_cons. destruct (decide (x = a)) as [->|]; [|done].
  cbn. assert (filter (λ s, s = a) l = []) as ->; [|cbn; lia].
  clear IH Hnd. induction l as [|y l IHl]; [done|].
  rewrite filter_cons. destruct (decide (y = a)) as [->|].
  - exfalso. apply Hx. by left.
  - apply IHl. intros Hin. apply Hx. by right.
Qed.

(** C2. At most one queue membership: in every state reachable by the core
    operations, every sha occurs at most once in the hub-check queue and
    the scan queue taken together (so never in both, and never twice in
    one). *)
Theorem C2_at_most_one_queue_membership (N : Z) (m : Model)
  (sha : DockerImageSha) :
  reachable N m →
  (occurrences sha (ImageHubCheckQueue m)
   + occurrences sha (ImageScanQueue m) ≤ 1)%nat.
Proof.
  intros Hr. pose proof (reachable_consistent N m Hr) as Hc.
  rewrite !occurrences_fmap, <-length_app, <-filter_app, <-fmap_app.
  apply NoDup_filter_eq_length. by apply (consistent_nodup m).
Qed.

Lemma C2_witness :
  (occurrences "sha-b" (ImageHubCheckQueue busyModel)
   + occurrences "sha-b" (ImageScanQueue busyModel) ≤ 1)%nat.
Proof.
  apply (C2_at_most_one_queue_membership 1 busyModel "sha-b").
  exact busyModel_reachable.
Defined.

(** C3. ReportAnalysisComplete: for a record in status RunningHubScan the
    operation returns, leaves the record in status Complete with the given
    results attached, and touches nothing else. *)
Theorem C3_report_analysis_complete (m : Model) (img : Image)
  (r : ScanResults) (info : ImageInfo) :
  Images m !! Sha img = Some info →
  ImageInfo_ScanStatus info = ScanStatusRunningHubScan →
  ∃ m', ReportAnalysisComplete img r m = Ok tt m'
        ∧ statusOf m' (Sha img) = Some ScanStatusComplete
        ∧ resultsOf m' (Sha img) = Some (Some r)
        ∧ (∀ sha, sha ≠ Sha img → Images m' !! sha = Images m !! sha)
        ∧ ImageScanQueue m' = ImageScanQueue m
        ∧ ImageHubCheckQueue m' = ImageHubCheckQueue m
        ∧ Pods m' = Pods m.
Proof.
  intros Hl Hst. eexists. rewrite ReportAnalysisComplete_eq, Hl.
  rewrite decide_True by done. split; [reflexivity|].
  unfold statusOf, resultsOf. cbn. rewrite lookup_insert_eq. cbn.
  repeat split. intros sha Hne. by rewrite lookup_insert_ne.
Qed.

Lemma C3_witness :
  ∃ m', ReportAnalysisComplete imageA resultsA hubScanModel = Ok tt m'
        ∧ statusOf m' "sha-a" = Some ScanStatusComplete
        ∧ resultsOf m' "sha-a" = Some (Some resultsA).
Proof.
  destruct (C3_report_analysis_complete hubScanModel imageA resultsA
              (setScanStatus ScanStatusRunningHubScan
                 (NewImageInfo "sha-a" "a")))
    as (m' & H1 & H2 & H3 & _).
  - vm_compute. reflexivity.
  - reflexivity.
  - exists m'. auto.
Defined.

Lemma setScanStatus_id info :
  setScanStatus (ImageInfo_ScanStatus info) info = info.
Proof. by destruct info. Qed.

(** C4. A failed scan is retried at once: for a record in status
    RunningScanClient, [errorRunningScanClient] returns; it is the write of
    status Error followed by [addImageToScanQueue]; it leaves the record in
    status InQueue and the image at the tail of the scan queue, under no
    further condition.  When nothing else is queued (and the model is
    within its capacity, as every reachable one is) the next
    [getNextImageFromScanQueue] hands the same image out again and brings
    the model back to where it was, so the cycle can repeat for ever. *)
Theorem C4_scan_error_requeues (m : Model) (img : Image) (info : ImageInfo) :
  Images m !! Sha img = Some info →
  ImageInfo_ScanStatus info = ScanStatusRunningScanClient →
  ∃ m', errorRunningScanClient img m = Ok tt m'
        ∧ errorRunningScanClient img m
          = addImageToScanQueue (Sha img)
              (withImages (insert (Sha img)
                             (setScanStatus ScanStatusError info)) m)
        ∧ statusOf m' (Sha img) = Some ScanStatusInQueue
        ∧ ImageScanQueue m' = ImageScanQueue m ++ [image info]
        ∧ (ImageInfo_ImageSha info = Sha img →
           ImageScanQueue m = [] →
           inProgressScanCount m <= ConcurrentScanLimit m →
           getNextImageFromScanQueue m' = Ok (Some (image info)) m).
Proof.
  intros Hl Hst. eexists. split.
  { rewrite errorRunningScanClient_eq, Hl. rewrite decide_True by done.
    reflexivity. }
  split.
  { rewrite errorRunningScanClient_eq, Hl. rewrite decide_True by done.
    rewrite addImageToScanQueue_eq. cbn. rewrite lookup_insert_eq. cbn.
    by rewrite insert_insert_eq. }
  split; [unfold statusOf; cbn; by rewrite lookup_insert_eq|].
  split; [done|].
  intros Hkey Hq Hcap.
  pose proof (activeScanCount_update m (Sha img) info
                (setScanStatus ScanStatusInQueue info) Hl) as Hcnt.
  rewrite Hst in Hcnt. cbn in Hcnt.
  rewrite inProgressScanCount_spec in Hcap.
  rewrite getNextImageFromScanQueue_eq.
  rewrite decide_False; [|unfold activeScanCount in *; cbn in *; lia].
  cbn. rewrite Hq. cbn. rewrite Hkey, lookup_insert_eq. cbn.
  rewrite insert_insert_eq. f_equal.
  rewrite <-Hst at 1. change (setScanStatus (ImageInfo_ScanStatus info)
    (setScanStatus ScanStatusInQueue info))
    with (setScanStatus (ImageInfo_ScanStatus info) info).
  rewrite setScanStatus_id, insert_id by done.
  destruct m; cbn in *; by subst.
Qed.

Lemma C4_witness :
  ∃ m', errorRunningScanClient imageA retryModel = Ok tt m'
        ∧ statusOf m' "sha-a" = Some ScanStatusInQueue
        ∧ ImageScanQueue m' = [imageA]
        ∧ getNextImageFromScanQueue m' = Ok (Some imageA) retryModel.
Proof.
  destruct (C4_scan_error_requeues retryModel imageA
              (setScanStatus ScanStatusRunningScanClient
                 (NewImageInfo "sha-a" "a")))
    as (m' & H1 & _ & H3 & H4 & H5).
  - vm_compute. reflexivity.
  - reflexivity.
  - exists m'. split; [done|]. split; [done|]. split; [done|].
    apply H5; [reflexivity|reflexivity|vm_compute; discriminate].
Defined.

(** C9. Pod deletion does not evict images: [DeletePod] changes nothing
    but the pod map, from which it removes the one key and no other; the
    image records and both queues stay as they are, whoever referenced the
    images; deleting a key that is not there changes nothing at all. *)
Theorem C9_delete_pod_keeps_images (m : Model) (podName : string) :
  Images (DeletePod podName m) = Images m
  ∧ ImageScanQueue (DeletePod podName m) = ImageScanQueue m
  ∧ ImageHubCheckQueue (DeletePod podName m) = ImageHubCheckQueue m
  ∧ ConcurrentScanLimit (DeletePod podName m) = ConcurrentScanLimit m
  ∧ Pods (DeletePod podName m) !! podName = None
  ∧ (∀ k, k ≠ podName → Pods (DeletePod podName m) !! k = Pods m !! k)
  ∧ (Pods m !! podName = None → DeletePod podName m = m).
Proof.
  unfold DeletePod. cbn. repeat split.
  - apply lookup_delete_eq.
  - intros k Hk. by apply lookup_delete_ne.
  - intros Habs. destruct m as [pods imgs sq hq lim]. unfold withPods.
    cbn [Pods Images ImageScanQueue ImageHubCheckQueue ConcurrentScanLimit]
      in *.
    by rewrite (delete_id pods podName Habs).
Qed.

Lemma C9_witness :
  Pods (DeletePod "ns/Q" busyModel) !! "ns/P" = Pods busyModel !! "ns/P"
  ∧ DeletePod "ns/Q" busyModel = busyModel.
Proof.
  destruct (C9_delete_pod_keeps_images busyModel "ns/Q")
    as (_ & _ & _ & _ & _ & Hother & Habsent).
  split.
  - apply Hother. discriminate.
  - apply Habsent. vm_compute. reflexivity.
Defined.

(** ** Aggregating the results of a pod *)

Lemma wrap_in_range z : GoInt.in_range z → GoInt.wrap z = z.
Proof.
  unfold GoInt.in_range, GoInt.int_min, GoInt.int_max, GoInt.wrap.
  intros H.
  assert (2 ^ 63 = 9223372036854775808) as E63 by reflexivity.
  assert (2 ^ 64 = 18446744073709551616) as E64 by reflexivity.
  rewrite E63, E64 in *. clear E63 E64. rewrite Z.mod_small; lia.
Qed.

Lemma wrap_add_wrap a b : GoInt.add (GoInt.wrap a) b = GoInt.wrap (a + b).
Proof.
  unfold GoInt.add, GoInt.wrap.
  replace ((a + 2 ^ 63) mod 2 ^ 64 - 2 ^ 63 + b + 2 ^ 63)
    with ((a + 2 ^ 63) mod 2 ^ 64 + b) by lia.
  rewrite Zplus_mod_idemp_l. f_equal. f_equal. lia.
Qed.

Lemma foldl_add_wrap a l :
  foldl GoInt.add (GoInt.wrap a) l = GoInt.wrap (a + sumZ l).
Proof.
  revert a. induction l as [|x l IH]; intros a; cbn [foldl].
  - unfold sumZ. cbn. f_equal. lia.
  - rewrite wrap_add_wrap, IH. unfold sumZ. cbn [foldr]. f_equal. lia.
Qed.

Lemma default_last_cons {A} (d x : A) l :
  default d (last (x :: l)) = default x (last l).
Proof.
  destruct l as [|y l]; [done|]. rewrite last_cons_cons.
  destruct (last (y :: l)) eqn:E; [done|]. by apply last_None in E.
Qed.

Lemma scanResultsStep_eq m p v s c :
  scanResultsStep m (p, v, s) c
  = match contribution m c with
    | None => (p, v, s)
    | Some r =>
        (GoInt.add p (PolicyViolationCount r),
         GoInt.add v (VulnerabilityCount r),
         if decide (OverallStatus r = "NOT_IN_VIOLATION")
         then s else OverallStatus r)
    end.
Proof.
  unfold scanResultsStep, contribution.
  destruct (Images m !! Sha (Container_Image c)) as [info|]; cbn; [|done].
  destruct (decide (ImageInfo_ScanStatus info = ScanStatusComplete));
    [|done].
  by destruct (ImageInfo_ScanResults info).
Qed.

Lemma scanResults_loop m cs p0 v0 s0 :
  foldl (scanResultsStep m) (p0, v0, s0) cs
  = (foldl GoInt.add p0 (PolicyViolationCount <$> completedResults m cs),
     foldl GoInt.add v0 (VulnerabilityCount <$> completedResults m cs),
     default s0 (last (filter (λ s, s ≠ "NOT_IN_VIOLATION")
                         (OverallStatus <$> completedResults m cs)))).
Proof.
  revert p0 v0 s0. induction cs as [|c cs IH]; intros p0 v0 s0; [done|].
  cbn [foldl]. rewrite scanResultsStep_eq.
  unfold completedResults in *. cbn [omap list_omap].
  destruct (contribution m c) as [r|]; [|apply IH].
  rewrite IH. cbn [fmap list_fmap foldl]. f_equal. rewrite filter_cons.
  destruct (decide (OverallStatus r = "NOT_IN_VIOLATION")) as [He|Hne].
  - by rewrite decide_False by (by intros ?).
  - rewrite decide_True by done. by rewrite default_last_cons.
Qed.

(** C5. [scanResults]: for a pod in the registry the result carries no
    error, and its counts are the sums (as Go [int]s, hence exact whenever
    they fit) of the policy-violation and vulnerability counts of the
    records of the pod's containers that are Complete and have results,
    while its status is the last one, in container order, that differs from
    "NOT_IN_VIOLATION" (empty if there is none); records that are absent,
    not Complete or without results add nothing.  For a pod that is not in
    the registry the result is the not-found error.  In particular a pod
    with image A (Complete; 2, 5, "IN_VIOLATION") and image B (Complete;
    0, 1, "NOT_IN_VIOLATION") yields (2, 6, "IN_VIOLATION"). *)
Theorem C5_aggregate_results (m : Model) (podName : string) :
  (∀ pod, Pods m !! podName = Some pod →
     let rs := completedResults m (Containers pod) in
     scanResults podName m
     = (GoInt.wrap (sumZ (PolicyViolationCount <$> rs)),
        GoInt.wrap (sumZ (VulnerabilityCount <$> rs)),
        lastViolation rs, None)
     ∧ (GoInt.in_range (sumZ (PolicyViolationCount <$> rs)) →
        GoInt.in_range (sumZ (VulnerabilityCount <$> rs)) →
        scanResults podName m
        = (sumZ (PolicyViolationCount <$> rs),
           sumZ (VulnerabilityCount <$> rs), lastViolation rs, None)))
  ∧ (Pods m !! podName = None →
     scanResults podName m
     = (0, 0, "",
        Some ("could not find pod of name " +:+ podName +:+ " in cache")))
  ∧ (∀ pod cA cB iA iB,
       Pods m !! podName = Some pod →
       Containers pod = [cA; cB] →
       Images m !! Sha (Container_Image cA) = Some iA →
       Images m !! Sha (Container_Image cB) = Some iB →
       ImageInfo_ScanStatus iA = ScanStatusComplete →
       ImageInfo_ScanStatus iB = ScanStatusComplete →
       ImageInfo_ScanResults iA = Some resultsA →
       ImageInfo_ScanResults iB = Some resultsB →
       scanResults podName m = (2, 6, "IN_VIOLATION", None)).
Proof.
  assert (∀ pod, Pods m !! podName = Some pod →
     scanResults podName m
     = (GoInt.wrap (sumZ (PolicyViolationCount
                            <$> completedResults m (Containers pod))),
        GoInt.wrap (sumZ (VulnerabilityCount
                            <$> completedResults m (Containers pod))),
        lastViolation (completedResults m (Containers pod)), None)) as Hsum.
  { intros pod Hp. unfold scanResults. rewrite Hp, scanResults_loop.
    change 0 with (GoInt.wrap 0) at 1 2. by rewrite !foldl_add_wrap. }
  split; [|split].
  - intros pod Hp rs. split; [by apply Hsum|].
    intros H1 H2. rewrite (Hsum pod Hp). fold rs.
    by rewrite !wrap_in_range.
  - intros Hp. unfold scanResults. by rewrite Hp.
  - intros pod cA cB iA iB Hp Hcs HA HB HsA HsB HrA HrB.
    rewrite (Hsum pod Hp), Hcs. unfold completedResults, contribution.
    cbn [omap list_omap]. rewrite HA, HB. cbn [mbind option_bind].
    rewrite !decide_True by done. rewrite HrA, HrB. reflexivity.
Qed.

Lemma completeModel_reachable : reachable 2 completeModel.
Proof.
  apply (runAll_reachable 2 completeOps (NewModel 2)); [constructor|].
  vm_compute. reflexivity.
Defined.

Lemma C5_witness :
  scanResults "ns/P" completeModel = (2, 6, "IN_VIOLATION", None)
  ∧ scanResults "ns/nonexistent" completeModel
    = (0, 0, "",
       Some "could not find pod of name ns/nonexistent in cache")
  ∧ scanResults "ns/P" busyModel = (0, 0, "", None).
Proof.
  split; [|split].
  - destruct (C5_aggregate_results completeModel "ns/P") as (_ & _ & H).
    apply (H podP (mkContainer imageA "c1") (mkContainer imageB "c2")
             (setScanResults (Some resultsA)
                (setScanStatus ScanStatusComplete (NewImageInfo "sha-a" "a")))
             (setScanResults (Some resultsB)
                (setScanStatus ScanStatusComplete
                   (NewImageInfo "sha-b" "b"))));
      vm_compute; reflexivity.
  - destruct (C5_aggregate_results completeModel "ns/nonexistent")
      as (_ & H & _).
    apply H. vm_compute. reflexivity.
  - destruct (C5_aggregate_results busyModel "ns/P") as (H & _ & _).
    destruct (H podP) as [_ H2]; [vm_compute; reflexivity|].
    rewrite H2; [vm_compute; reflexivity| |];
      vm_compute; split; discriminate.
Defined.

(** ** Registration *)

Lemma AddImage_present img m :
  is_Some (Images m !! Sha img) → AddImage img m = Ok tt m.
Proof. intros [info H]. by rewrite AddImage_eq, H. Qed.

Lemma AddImage_total img m : ∃ m', AddImage img m = Ok tt m'.
Proof.
  rewrite AddImage_eq. destruct (Images m !! Sha img); eauto.
Qed.

(** Registering an image leaves the records and the queue entries of every
    other registered sha alone. *)
Lemma AddImage_keeps sha info img m m' :
  Images m !! sha = Some info →
  AddImage img m = Ok tt m' →
  Images m' !! sha = Some info
  ∧ occurrences sha (ImageHubCheckQueue m')
    = occurrences sha (ImageHubCheckQueue m)
  ∧ ImageScanQueue m' = ImageScanQueue m
  ∧ ConcurrentScanLimit m' = ConcurrentScanLimit m.
Proof.
  intros Hl. rewrite AddImage_eq.
  destruct (Images m !! Sha img) as [i|] eqn:Hi; intros [= <-]; [done|].
  assert (Sha img ≠ sha) as Hne by (intros E; rewrite E in Hi; congruence).
  cbn. split; [by rewrite lookup_insert_ne|]. split; [|done].
  unfold occurrences. rewrite filter_app, length_app, filter_cons.
  rewrite decide_False by done. cbn. lia.
Qed.

Lemma registerAll_total (cs : list Container) m :
  ∃ m', forEach cs (λ c, AddImage (Container_Image c)) m = Ok tt m'.
Proof.
  revert m. induction cs as [|c cs IH]; intros m; cbn; [by eexists|].
  destruct (AddImage_total (Container_Image c) m) as [m1 H1].
  unfold mbind, M_bind, bind. rewrite H1. apply IH.
Qed.

Lemma registerAll_skip sha (cs : list Container) m :
  is_Some (Images m !! sha) →
  forEach cs (λ c, AddImage (Container_Image c)) m
  = forEach (filter (λ c, Sha (Container_Image c) ≠ sha) cs)
      (λ c, AddImage (Container_Image c)) m.
Proof.
  revert m. induction cs as [|c cs IH]; intros m Hp; [done|].
  rewrite filter_cons.
  destruct (decide (Sha (Container_Image c) ≠ sha)) as [Hne|Heq].
  - cbn. unfold mbind, M_bind, bind.
    destruct (AddImage_total (Container_Image c) m) as [m1 H1]. rewrite H1.
    apply IH. destruct Hp as [info Hinfo].
    destruct (AddImage_keeps sha info _ m m1 Hinfo H1) as [-> _]. eauto.
  - apply dec_stable in Heq. cbn. unfold mbind, M_bind, bind.
    rewrite (AddImage_present (Container_Image c) m) by (by rewrite Heq).
    by apply IH.
Qed.

(** C6. Idempotent registration: when the sha of an image is already in
    the registry, [AddImage] returns the model unchanged, its record and
    everything else; and [AddPod] of a pod leaves that record and the
    queue entries of that sha as they are, having on the registry and the
    queues exactly the effect it has for the pod stripped of the containers
    that run the image. *)
Theorem C6_idempotent_registration (m : Model) (img : Image) :
  is_Some (Images m !! Sha img) →
  AddImage img m = Ok tt m
  ∧ ∀ pod, ∃ m' m'',
      AddPod pod m = Ok tt m'
      ∧ AddPod (withoutImage (Sha img) pod) m = Ok tt m''
      ∧ Images m' = Images m''
      ∧ ImageHubCheckQueue m' = ImageHubCheckQueue m''
      ∧ ImageScanQueue m' = ImageScanQueue m''
      ∧ Images m' !! Sha img = Images m !! Sha img
      ∧ occurrences (Sha img) (ImageHubCheckQueue m')
        = occurrences (Sha img) (ImageHubCheckQueue m)
      ∧ ImageScanQueue m' = ImageScanQueue m.
Proof.
  intros Hp. split; [by apply AddImage_present|]. intros pod.
  destruct (registerAll_total (Containers pod) m) as [m1 H1].
  pose proof H1 as H1'. rewrite (registerAll_skip (Sha img)) in H1' by done.
  exists (withPods (insert (QualifiedName pod) pod) m1),
         (withPods (insert (QualifiedName (withoutImage (Sha img) pod))
                      (withoutImage (Sha img) pod)) m1).
  split; [unfold AddPod; by rewrite (bind_Ok _ _ _ _ _ H1)|].
  split; [unfold AddPod; cbn [Containers withoutImage];
          by rewrite (bind_Ok _ _ _ _ _ H1')|].
  cbn. do 3 (split; [done|]).
  destruct Hp as [info Hinfo]. rewrite Hinfo.
  revert H1.
  apply (forEach_preserves
    (λ x, Images x !! Sha img = Some info
          ∧ occurrences (Sha img) (ImageHubCheckQueue x)
            = occurrences (Sha img) (ImageHubCheckQueue m)
          ∧ ImageScanQueue x = ImageScanQueue m)); [|done].
  intros c x x' (Hx1 & Hx2 & Hx3) Hadd.
  destruct (AddImage_keeps _ _ _ _ _ Hx1 Hadd) as (? & ? & ? & _).
  repeat split; congruence.
Qed.

Lemma C6_witness :
  AddImage imageA busyModel = Ok tt busyModel
  ∧ AddPod podQ busyModel
    = Ok tt (withPods (insert "ns/Q" podQ) busyModel).
Proof.
  destruct (C6_idempotent_registration busyModel imageA) as [H1 H2].
  - vm_compute. eauto.
  - split; [exact H1|]. vm_compute. reflexivity.
Defined.

(** ** Transitions out of turn *)

Lemma discard_eq {A} (c : M A) m :
  discard c m = match c m with
                | Ok _ m' => Ok tt m'
                | Panicked site m' => Panicked site m'
                end.
Proof. unfold discard, mbind, M_bind, bind. by destruct (c m). Qed.

(** C7. Invalid transitions abort: when the record a transition acts on
    (its argument's, or for a dequeue the one of the head of the queue) is
    absent from the registry or not in the status the transition requires,
    the call panics and the model is as it was, so no status has moved.
    A dequeue from the scan queue whose gate is closed does not reach the
    queue: it returns nil, again without moving any status. *)
Theorem C7_invalid_transition_aborts (t : Transition) (m : Model)
  (img : Image) :
  (actsOn t m img →
   (∀ st, statusOf m (Sha img) = Some st → precondition t st = false) →
   ∃ site, invoke t img m = Panicked site m)
  ∧ (inProgressScanCount m >= ConcurrentScanLimit m →
     invoke DequeueForScan img m = Ok tt m).
Proof.
  split.
  - intros Hact Hpre. unfold statusOf in Hpre.
    destruct t; cbn [invoke actsOn] in *.
    + rewrite addImageToHubCheckQueue_eq.
      destruct (Images m !! Sha img) as [info|]; [|by eexists].
      specialize (Hpre _ eq_refl).
      destruct (ImageInfo_ScanStatus info); try done; by eexists.
    + rewrite addImageToScanQueue_eq.
      destruct (Images m !! Sha img) as [info|]; [|by eexists].
      specialize (Hpre _ eq_refl).
      destruct (ImageInfo_ScanStatus info); try done; by eexists.
    + rewrite discard_eq, getNextImageFromHubCheckQueue_eq.
      destruct (ImageHubCheckQueue m) as [|first rest]; [done|].
      injection Hact as ->.
      destruct (Images m !! Sha img) as [info|]; [|by eexists].
      specialize (Hpre _ eq_refl). cbn in Hpre.
      destruct (decide _) as [Hst|]; [|by eexists].
      by rewrite Hst in Hpre.
    + destruct Hact as [Hhead Hgate].
      rewrite inProgressScanCount_spec in Hgate.
      rewrite discard_eq, getNextImageFromScanQueue_eq.
      rewrite decide_False by lia.
      destruct (ImageScanQueue m) as [|first rest]; [done|].
      injection Hhead as ->.
      destruct (Images m !! Sha img) as [info|]; [|by eexists].
      specialize (Hpre _ eq_refl). cbn in Hpre.
      destruct (decide _) as [Hst|]; [|by eexists].
      by rewrite Hst in Hpre.
    + rewrite errorRunningScanClient_eq.
      destruct (Images m !! Sha img) as [info|]; [|by eexists].
      specialize (Hpre _ eq_refl). cbn in Hpre.
      destruct (decide _) as [Hst|]; [|by eexists].
      by rewrite Hst in Hpre.
    + rewrite finishRunningScanClient_eq.
      destruct (Images m !! Sha img) as [info|]; [|by eexists].
      specialize (Hpre _ eq_refl). cbn in Hpre.
      destruct (decide _) as [Hst|]; [|by eexists].
      by rewrite Hst in Hpre.
  - intros Hgate. cbn [invoke].
    rewrite inProgressScanCount_spec in Hgate.
    rewrite discard_eq, getNextImageFromScanQueue_eq.
    by rewrite decide_True.
Qed.

Lemma C7_witness :
  (∃ site, invoke ReportScanClientFinished imageB busyModel
           = Panicked site busyModel)
  ∧ invoke DequeueForScan imageB busyModel = Ok tt busyModel.
Proof.
  split.
  - destruct (C7_invalid_transition_aborts ReportScanClientFinished
                busyModel imageB) as [H _].
    apply H; [exact I|]. intros st Hst. vm_compute in Hst.
    by injection Hst as <-.
  - destruct (C7_invalid_transition_aborts DequeueForScan busyModel imageB)
      as [_ H].
    apply H. vm_compute. discriminate.
Defined.

(** ** Queue order *)

Lemma ind_checkingHub k x :
  ind checkingHub k x
  = if decide (ImageInfo_ScanStatus x = ScanStatusCheckingHub)
    then 1%nat else 0%nat.
Proof.
  unfold ind. destruct (decide (checkingHub (k, x))) as [H|H];
    unfold checkingHub in H; cbn in H.
  - by rewrite decide_True.
  - by rewrite decide_False.
Qed.

Lemma AddImage_fresh img m :
  Images m !! Sha img = None →
  ∃ m', AddImage img m = Ok tt m'
        ∧ ImageHubCheckQueue m' = ImageHubCheckQueue m ++ [img]
        ∧ ImageScanQueue m' = ImageScanQueue m
        ∧ checkingHubCount m' = checkingHubCount m
        ∧ (∀ sha, sha ≠ Sha img → Images m' !! sha = Images m !! sha).
Proof.
  intros Hl. eexists. rewrite AddImage_eq, Hl. split; [done|].
  repeat split.
  - unfold checkingHubCount. cbn [Images].
    rewrite countP_insert_None by done. by rewrite ind_checkingHub.
  - intros sha Hne. cbn. by rewrite lookup_insert_ne.
Qed.

Lemma registerFresh (rs : list Image) m :
  NoDup (Sha <$> rs) →
  (∀ r, r ∈ rs → Images m !! Sha r = None) →
  ∃ m', forEach rs AddImage m = Ok tt m'
        ∧ ImageHubCheckQueue m' = ImageHubCheckQueue m ++ rs
        ∧ ImageScanQueue m' = ImageScanQueue m
        ∧ checkingHubCount m' = checkingHubCount m.
Proof.
  revert m. induction rs as [|r rs IH]; intros m Hnd Hfresh.
  - exists m. cbn. by rewrite app_nil_r.
  - cbn in Hnd. apply NoDup_cons in Hnd as [Hr Hnd].
    destruct (AddImage_fresh r m) as (m1 & H1 & Hq & Hs & Hc & Hother).
    { apply Hfresh. by left. }
    destruct (IH m1 Hnd) as (m' & H2 & Hq' & Hs' & Hc').
    { intros r' Hin. rewrite Hother.
      - apply Hfresh. by right.
      - intros E. apply Hr. rewrite <-E. apply list_elem_of_fmap. eauto. }
    exists m'. cbn. rewrite (bind_Ok _ _ _ _ _ H1).
    split; [done|]. rewrite Hq', Hq, Hs', Hs, Hc', Hc.
    by rewrite <-(assoc_L (++)).
Qed.

Lemma registerAll_reachable N (rs : list Image) m m' :
  reachable N m → forEach rs AddImage m = Ok tt m' → reachable N m'.
Proof.
  apply (forEach_preserves (reachable N)).
  intros img x x' Hx Hadd. by apply (reachable_step N x (OpAddImage img)).
Qed.

(** In a reachable state the hub-check queue hands out its head. *)
Lemma hubCheck_dequeue N m first rest :
  reachable N m →
  ImageHubCheckQueue m = first :: rest →
  ∃ m', getNextImageFromHubCheckQueue m = Ok (Some first) m'
        ∧ ImageHubCheckQueue m' = rest
        ∧ statusOf m' (Sha first) = Some ScanStatusCheckingHub
        ∧ checkingHubCount m' = S (checkingHubCount m)
        ∧ reachable N m'.
Proof.
  intros Hr Hq. pose proof (reachable_consistent N m Hr) as Hc.
  pose proof (consistent_hub m Hc first) as Hst.
  rewrite Hq in Hst. specialize (Hst ltac:(by left)).
  unfold statusOf in Hst.
  destruct (Images m !! Sha first) as [info|] eqn:Hl; [|done].
  injection Hst as Hst.
  assert (getNextImageFromHubCheckQueue m
          = Ok (Some first)
              {| Pods := Pods m;
                 Images := <[Sha first := setScanStatus ScanStatusCheckingHub
                                            info]> (Images m);
                 ImageScanQueue := ImageScanQueue m;
                 ImageHubCheckQueue := rest;
                 ConcurrentScanLimit := ConcurrentScanLimit m |}) as Hrun.
  { rewrite getNextImageFromHubCheckQueue_eq, Hq, Hl.
    by rewrite decide_True. }
  eexists. split; [exact Hrun|]. split; [done|].
  split; [unfold statusOf; cbn; by rewrite lookup_insert_eq|]. split.
  - unfold checkingHubCount. cbn [Images].
    pose proof (countP_insert_Some checkingHub (Images m) (Sha first)
                  (setScanStatus ScanStatusCheckingHub info) info Hl) as Hcnt.
    rewrite !ind_checkingHub in Hcnt.
    cbn [setScanStatus ImageInfo_ScanStatus] in Hcnt. rewrite Hst in Hcnt.
    repeat case_decide; try done; lia.
  - apply (reachable_step N m OpGetNextImageFromHubCheckQueue); [done|].
    cbn [run]. by rewrite discard_eq, Hrun.
Qed.

Lemma hubCheck_drain N (q : list Image) m :
  reachable N m →
  ImageHubCheckQueue m = q →
  ∃ m', drainHubCheckQueue (length q) m = Ok (Some <$> q) m'
        ∧ ImageHubCheckQueue m' = []
        ∧ checkingHubCount m' = (checkingHubCount m + length q)%nat
        ∧ reachable N m'.
Proof.
  revert m. induction q as [|first rest IH]; intros m Hr Hq.
  - exists m. cbn. repeat split; [done| lia | done].
  - destruct (hubCheck_dequeue N m first rest Hr Hq)
      as (m1 & H1 & Hq1 & _ & Hc1 & Hr1).
    destruct (IH m1 Hr1 Hq1) as (m' & H2 & Hq' & Hc' & Hr').
    exists m'. cbn [length drainHubCheckQueue].
    rewrite (bind_Ok _ _ _ _ _ H1), (bind_Ok _ _ _ _ _ H2).
    split; [done|]. split; [done|]. split; [lia|done].
Qed.



Lemma freshImages_NoDup n : NoDup (Sha <$> freshImages n).
Proof.
  unfold freshImages. rewrite <-list_fmap_compose.
  apply (NoDup_fmap_2 (λ i : nat, pretty i)), NoDup_seq.
Qed.

(** C10. The concurrency limit does not gate the hub-check queue: in every
    reachable state with a non-empty hub-check queue, whatever the limit
    and the number of scans in progress,
    [getNextImageFromHubCheckQueue] returns the head of the queue and
    moves its record to CheckingHub; and for every limit and every [n]
    there is a reachable state with [n] records in status CheckingHub. *)
Theorem C10_hub_check_is_not_gated (N : Z) :
  (∀ m first rest,
     reachable N m →
     ImageHubCheckQueue m = first :: rest →
     ∃ m', getNextImageFromHubCheckQueue m = Ok (Some first) m'
           ∧ ImageHubCheckQueue m' = rest
           ∧ statusOf m' (Sha first) = Some ScanStatusCheckingHub
           ∧ reachable N m')
  ∧ (∀ n : nat,
       ∃ m, reachable N m
            ∧ size (filter checkingHub (Images m)) = n).
Proof.
  split.
  - intros m first rest Hr Hq.
    destruct (hubCheck_dequeue N m first rest Hr Hq)
      as (m' & H1 & H2 & H3 & _ & H5).
    by exists m'.
  - intros n.
    destruct (registerFresh (freshImages n) (NewModel N))
      as (m1 & H1 & Hq1 & _ & Hc1).
    { apply freshImages_NoDup. }
    { intros r _. apply lookup_empty. }
    pose proof (registerAll_reachable N _ _ m1 (reachable_new N) H1) as Hr1.
    destruct (hubCheck_drain N _ m1 Hr1 Hq1) as (m2 & _ & _ & Hc2 & Hr2).
    exists m2. split; [done|]. rewrite <-countP_size.
    fold (checkingHubCount m2). rewrite Hc2, Hc1.
    unfold checkingHubCount at 1. cbn. rewrite countP_empty.
    cbn. unfold freshImages. by rewrite length_fmap, length_seq.
Qed.

Lemma gatedModel_reachable : reachable 1 gatedModel.
Proof.
  apply (runAll_reachable 1
           (queuedOps ++ [OpGetNextImageFromScanQueue; OpAddImage imageC])
           (NewModel 1)); [constructor|].
  vm_compute. reflexivity.
Defined.

Lemma C10_witness :
  inProgressScanCount gatedModel >= ConcurrentScanLimit gatedModel
  ∧ ∃ m', getNextImageFromHubCheckQueue gatedModel = Ok (Some imageC) m'
          ∧ statusOf m' "sha-c" = Some ScanStatusCheckingHub.
Proof.
  split; [vm_compute; discriminate|].
  destruct (C10_hub_check_is_not_gated 1) as [H _].
  destruct (H gatedModel imageC []) as (m' & H1 & _ & H3 & _).
  - exact gatedModel_reachable.
  - vm_compute. reflexivity.
  - exists m'. split; [exact H1|exact H3].
Defined.

(** * Further properties of the model *)

(** ** Statuses tell queue membership *)

Lemma settled_new limit : settled (NewModel limit).
Proof. intros sha info H. cbn in H. by rewrite lookup_empty in H. Qed.

Lemma settled_update m m' k info' :
  settled m →
  Images m' = <[k := info']> (Images m) →
  statusOk m' k (ImageInfo_ScanStatus info') →
  (∀ sha st, sha ≠ k → statusOk m sha st → statusOk m' sha st) →
  settled m'.
Proof.
  intros Hs Himg Hk Hother sha info. rewrite Himg, lookup_insert.
  case_decide as Hd.
  - intros [= <-]. by subst.
  - intros Hl. apply Hother; [done|]. by apply Hs.
Qed.

Lemma statusOk_queues m m' sha st :
  (sha ∈ Sha <$> ImageHubCheckQueue m → sha ∈ Sha <$> ImageHubCheckQueue m') →
  (sha ∈ Sha <$> ImageScanQueue m → sha ∈ Sha <$> ImageScanQueue m') →
  statusOk m sha st → statusOk m' sha st.
Proof. intros Hh Hq. destruct st; cbn; auto. Qed.

Lemma elem_of_fmap_snoc sha (q : list Image) x :
  sha ∈ Sha <$> q → sha ∈ Sha <$> (q ++ [x]).
Proof. rewrite fmap_app, elem_of_app. auto. Qed.

Lemma elem_of_fmap_last (q : list Image) x : Sha x ∈ Sha <$> (q ++ [x]).
Proof. rewrite fmap_app, elem_of_app. right. cbn. by left. Qed.

Lemma elem_of_fmap_tail sha first (rest : list Image) :
  sha ≠ Sha first → sha ∈ Sha <$> (first :: rest) → sha ∈ Sha <$> rest.
Proof. intros Hne. cbn. rewrite elem_of_cons. by intros [?|?]. Qed.

Lemma AddImage_settled img m m' :
  settled m → AddImage img m = Ok tt m' → settled m'.
Proof.
  intros Hs. rewrite AddImage_eq.
  destruct (Images m !! Sha img) as [i|] eqn:Hl; intros [= <-]; [done|].
  eapply (settled_update m); [done|reflexivity| |].
  - cbn. apply elem_of_fmap_last.
  - intros sha st _. apply statusOk_queues; cbn; [|done].
    apply elem_of_fmap_snoc.
Qed.

Lemma addImageToHubCheckQueue_settled sha m m' :
  settled m → addImageToHubCheckQueue sha m = Ok tt m' → settled m'.
Proof.
  intros Hs. rewrite addImageToHubCheckQueue_eq.
  destruct (Images m !! sha) as [info|] eqn:Hl; [|done].
  pose proof (Hs sha info Hl) as Hok.
  destruct (ImageInfo_ScanStatus info); done.
Qed.

Lemma addImageToScanQueue_settled sha m m' :
  consistent m → settled m → addImageToScanQueue sha m = Ok tt m' →
  settled m'.
Proof.
  intros Hc Hs. rewrite addImageToScanQueue_eq.
  destruct (Images m !! sha) as [info|] eqn:Hl; [|done].
  pose proof (Hs sha info Hl) as Hok.
  pose proof (consistent_keys m Hc sha info Hl) as Hkey.
  destruct (ImageInfo_ScanStatus info); try done. intros [= <-].
  eapply (settled_update m); [done|reflexivity| |].
  - cbn. rewrite <-Hkey at 1. apply (elem_of_fmap_last _ (image info)).
  - intros k st _. apply statusOk_queues; cbn; [done|].
    apply elem_of_fmap_snoc.
Qed.

Lemma getNextImageFromHubCheckQueue_settled m a m' :
  settled m → getNextImageFromHubCheckQueue m = Ok a m' → settled m'.
Proof.
  intros Hs. rewrite getNextImageFromHubCheckQueue_eq.
  destruct (ImageHubCheckQueue m) as [|first rest] eqn:Hq;
    [by intros [= <- <-]|].
  destruct (Images m !! Sha first) as [info|] eqn:Hl; [|done].
  destruct (decide _) as [Hst|]; [|done]. intros [= <- <-].
  eapply (settled_update m); [done|reflexivity|done|].
  intros k st Hne. apply statusOk_queues; cbn; [|done].
  rewrite Hq. by apply elem_of_fmap_tail.
Qed.

Lemma getNextImageFromScanQueue_settled m a m' :
  settled m → getNextImageFromScanQueue m = Ok a m' → settled m'.
Proof.
  intros Hs. rewrite getNextImageFromScanQueue_eq.
  destruct (decide _); [by intros [= <- <-]|].
  destruct (ImageScanQueue m) as [|first rest] eqn:Hq;
    [by intros [= <- <-]|].
  destruct (Images m !! Sha first) as [info|] eqn:Hl; [|done].
  destruct (decide _) as [Hst|]; [|done]. intros [= <- <-].
  eapply (settled_update m); [done|reflexivity|done|].
  intros k st Hne. apply statusOk_queues; cbn; [done|].
  rewrite Hq. by apply elem_of_fmap_tail.
Qed.

Lemma errorRunningScanClient_settled img m m' :
  consistent m → settled m → errorRunningScanClient img m = Ok tt m' →
  settled m'.
Proof.
  intros Hc Hs. rewrite errorRunningScanClient_eq.
  destruct (Images m !! Sha img) as [info|] eqn:Hl; [|done].
  pose proof (consistent_keys m Hc _ info Hl) as Hkey.
  destruct (decide _) as [Hst|]; [|done]. intros [= <-].
  eapply (settled_update m); [done|reflexivity| |].
  - cbn. rewrite <-Hkey at 1. apply (elem_of_fmap_last _ (image info)).
  - intros k st _. apply statusOk_queues; cbn; [done|].
    apply elem_of_fmap_snoc.
Qed.

Lemma finishRunningScanClient_settled img m m' :
  settled m → finishRunningScanClient img m = Ok tt m' → settled m'.
Proof.
  intros Hs. rewrite finishRunningScanClient_eq.
  destruct (Images m !! Sha img) as [info|] eqn:Hl; [|done].
  destruct (decide _) as [Hst|]; [|done]. intros [= <-].
  eapply (settled_update m); [done|reflexivity|done|].
  intros k st _. by apply statusOk_queues.
Qed.

Lemma ReportAnalysisComplete_settled img r m m' :
  settled m → ReportAnalysisComplete img r m = Ok tt m' → settled m'.
Proof.
  intros Hs. rewrite ReportAnalysisComplete_eq.
  destruct (Images m !! Sha img) as [info|] eqn:Hl; [|done].
  destruct (decide _) as [Hst|]; [|done]. intros [= <-].
  eapply (settled_update m); [done|reflexivity|done|].
  intros k st _. by apply statusOk_queues.
Qed.

Lemma run_settled op m m' :
  consistent m → settled m → run op m = Ok tt m' → settled m'.
Proof.
  intros Hc Hs. destruct op; cbn [run].
  - intros (u & m1 & H1 & H2)%bind_inv_Ok. destruct u.
    injection H2 as <-.
    assert (settled m1) as Hs1.
    { revert H1. apply (forEach_preserves settled); [|done].
      intros c x x'. apply AddImage_settled. }
    intros sha info Hl. by apply (Hs1 sha info).
  - intros [= <-]. intros sha info Hl. by apply (Hs sha info).
  - by apply AddImage_settled.
  - by apply addImageToHubCheckQueue_settled.
  - by apply addImageToScanQueue_settled.
  - intros [a H]%discard_inv.
    by eapply getNextImageFromHubCheckQueue_settled.
  - intros [a H]%discard_inv. by eapply getNextImageFromScanQueue_settled.
  - by apply errorRunningScanClient_settled.
  - by apply finishRunningScanClient_settled.
  - by apply ReportAnalysisComplete_settled.
Qed.

Lemma reachable_settled limit m : reachable limit m → settled m.
Proof.
  induction 1 as [|m op m' Hr IH Hrun].
  - apply settled_new.
  - eapply run_settled; [|done|done]. by eapply reachable_consistent.
Qed.

Lemma occurrences_pos sha (q : list Image) :
  (0 < occurrences sha q)%nat ↔ sha ∈ Sha <$> q.
Proof.
  unfold occurrences. induction q as [|x q IH].
  - cbn. split; [lia|]. by intros ?%elem_of_nil.
  - rewrite filter_cons, fmap_cons, elem_of_cons. case_decide as Hd.
    + cbn [length]. split; [auto|lia].
    + rewrite IH. split; [auto|]. intros [?|?]; [congruence|done].
Qed.

Lemma occurrences_NoDup sha (q : list Image) :
  NoDup (Sha <$> q) → occurrences sha q = 1%nat ↔ sha ∈ Sha <$> q.
Proof.
  intros Hnd. rewrite <-occurrences_pos.
  pose proof (NoDup_filter_eq_length (Sha <$> q) sha Hnd) as Hle.
  rewrite <-occurrences_fmap in Hle. lia.
Qed.

Lemma consistent_NoDup_hub m :
  consistent m → NoDup (Sha <$> ImageHubCheckQueue m).
Proof.
  intros Hc. pose proof (consistent_nodup m Hc) as Hnd.
  rewrite fmap_app in Hnd. by apply NoDup_app in Hnd as (? & _ & _).
Qed.

Lemma consistent_NoDup_scan m :
  consistent m → NoDup (Sha <$> ImageScanQueue m).
Proof.
  intros Hc. pose proof (consistent_nodup m Hc) as Hnd.
  rewrite fmap_app in Hnd. by apply NoDup_app in Hnd as (_ & _ & ?).
Qed.

(** X1. In every state a run can reach, the status of a record tells
    where its image is: the record is in status InHubCheckQueue exactly
    when its sha is in the hub-check queue (once), in status InQueue
    exactly when its sha is in the scan queue (once), and it is never
    left in status Unknown or Error; a sha without a record is in no
    queue. *)
Theorem status_tells_queue_membership (N : Z) (m : Model)
  (sha : DockerImageSha) :
  reachable N m →
  (∀ info, Images m !! sha = Some info →
     (ImageInfo_ScanStatus info = ScanStatusInHubCheckQueue
      ↔ occurrences sha (ImageHubCheckQueue m) = 1%nat)
     ∧ (ImageInfo_ScanStatus info = ScanStatusInQueue
        ↔ occurrences sha (ImageScanQueue m) = 1%nat)
     ∧ ImageInfo_ScanStatus info ≠ ScanStatusUnknown
     ∧ ImageInfo_ScanStatus info ≠ ScanStatusError)
  ∧ (Images m !! sha = None →
     occurrences sha (ImageHubCheckQueue m) = 0%nat
     ∧ occurrences sha (ImageScanQueue m) = 0%nat).
Proof.
  intros Hr.
  pose proof (reachable_consistent N m Hr) as Hc.
  pose proof (reachable_settled N m Hr) as Hs.
  split.
  - intros info Hl. pose proof (Hs sha info Hl) as Hok.
    rewrite (occurrences_NoDup sha _ (consistent_NoDup_hub m Hc)).
    rewrite (occurrences_NoDup sha _ (consistent_NoDup_scan m Hc)).
    repeat split.
    + intros E. by rewrite E in Hok.
    + intros (img & -> & Hin)%list_elem_of_fmap.
      pose proof (consistent_hub m Hc img Hin) as Hst.
      rewrite (statusOf_Some m _ info Hl) in Hst. congruence.
    + intros E. by rewrite E in Hok.
    + intros (img & -> & Hin)%list_elem_of_fmap.
      pose proof (consistent_scan m Hc img Hin) as Hst.
      rewrite (statusOf_Some m _ info Hl) in Hst. congruence.
    + intros E. by rewrite E in Hok.
    + intros E. by rewrite E in Hok.
  - intros Hl. pose proof (not_queued_of_absent m sha Hc Hl) as Hnot.
    rewrite fmap_app, elem_of_app in Hnot.
    pose proof (occurrences_pos sha (ImageHubCheckQueue m)) as H1.
    pose proof (occurrences_pos sha (ImageScanQueue m)) as H2.
    split.
    + destruct (occurrences sha (ImageHubCheckQueue m)); [done|].
      exfalso. apply Hnot. left. apply H1. lia.
    + destruct (occurrences sha (ImageScanQueue m)); [done|].
      exfalso. apply Hnot. right. apply H2. lia.
Qed.

Lemma status_tells_queue_membership_witness :
  statusOf busyModel "sha-b" = Some ScanStatusInQueue
  ∧ occurrences "sha-b" (ImageScanQueue busyModel) = 1%nat
  ∧ occurrences "sha-b" (ImageHubCheckQueue busyModel) ≠ 1%nat.
Proof.
  destruct (status_tells_queue_membership 1 busyModel "sha-b"
              busyModel_reachable) as [H _].
  assert (Images busyModel !! "sha-b"
          = Some (setScanStatus ScanStatusInQueue (NewImageInfo "sha-b" "b")))
    as E by (vm_compute; reflexivity).
  destruct (H _ E) as ([_ Hh] & [Hq _] & _).
  split; [vm_compute; reflexivity|]. split.
  - apply Hq. reflexivity.
  - intros Hn. apply Hh in Hn. discriminate Hn.
Defined.

(** X2. In every state a run can reach, calling addImageToHubCheckQueue
    on its own panics and leaves the model as it was, whatever the sha:
    the statuses it accepts, Unknown and Error, exist only inside
    AddImage and errorRunningScanClient, so AddImage is the only way into
    the hub-check queue. *)
Theorem hub_check_enqueue_panics_outside_AddImage (N : Z) (m : Model)
  (sha : DockerImageSha) :
  reachable N m → ∃ site, addImageToHubCheckQueue sha m = Panicked site m.
Proof.
  intros Hr. pose proof (reachable_settled N m Hr) as Hs.
  rewrite addImageToHubCheckQueue_eq.
  destruct (Images m !! sha) as [info|] eqn:Hl; [|by eexists].
  pose proof (Hs sha info Hl) as Hok.
  destruct (ImageInfo_ScanStatus info); try done; by eexists.
Qed.

Lemma hub_check_enqueue_panics_outside_AddImage_witness :
  ∃ site, addImageToHubCheckQueue "sha-b" busyModel = Panicked site busyModel.
Proof.
  exact (hub_check_enqueue_panics_outside_AddImage 1 busyModel "sha-b"
           busyModel_reachable).
Defined.

(** ** Records stay *)

Lemma keepsRecords_refl m : keepsRecords m m.
Proof. intros sha info Hl. by exists info. Qed.

Lemma keepsRecords_trans m1 m2 m3 :
  keepsRecords m1 m2 → keepsRecords m2 m3 → keepsRecords m1 m3.
Proof.
  intros H12 H23 sha info Hl.
  destruct (H12 sha info Hl) as (i2 & Hl2 & ? & ?).
  destruct (H23 sha i2 Hl2) as (i3 & Hl3 & ? & ?).
  exists i3. repeat split; [done|congruence|congruence].
Qed.

Lemma keepsRecords_insert m m' k info0 info' :
  Images m' = <[k := info']> (Images m) →
  Images m !! k = Some info0 →
  ImageInfo_ImageSha info' = ImageInfo_ImageSha info0 →
  ImageInfo_ImageName info' = ImageInfo_ImageName info0 →
  keepsRecords m m'.
Proof.
  intros Himg Hk Hsha Hname sha info Hl. rewrite Himg, lookup_insert.
  case_decide as Hd.
  - subst sha. rewrite Hk in Hl. injection Hl as <-. by eexists.
  - by exists info.
Qed.

Lemma keepsRecords_fresh m m' k info' :
  Images m' = <[k := info']> (Images m) →
  Images m !! k = None →
  keepsRecords m m'.
Proof.
  intros Himg Hk sha info Hl. rewrite Himg, lookup_insert.
  case_decide as Hd; [congruence|]. by exists info.
Qed.

Lemma run_keepsRecords op m m' :
  run op m = Ok tt m' →
  keepsRecords m m' ∧ ConcurrentScanLimit m' = ConcurrentScanLimit m.
Proof.
  assert (∀ img x x', AddImage img x = Ok tt x' →
            keepsRecords x x'
            ∧ ConcurrentScanLimit x' = ConcurrentScanLimit x) as HAdd.
  { intros img x x'. rewrite AddImage_eq.
    destruct (Images x !! Sha img) as [i|] eqn:Hl; intros [= <-].
    - split; [apply keepsRecords_refl|done].
    - split; [|done]. by eapply keepsRecords_fresh. }
  destruct op; cbn [run].
  - intros (u & m1 & H1 & H2)%bind_inv_Ok. destruct u. injection H2 as <-.
    change (keepsRecords m m1
            ∧ ConcurrentScanLimit m1 = ConcurrentScanLimit m).
    revert H1.
    apply (forEach_preserves
      (λ x, keepsRecords m x
            ∧ ConcurrentScanLimit x = ConcurrentScanLimit m));
      [|split; [apply keepsRecords_refl|done]].
    intros c x x' [HK HL] [HK' HL']%HAdd.
    split; [by eapply keepsRecords_trans|congruence].
  - intros [= <-]. split; [|done]. intros k info Hl. by exists info.
  - apply HAdd.
  - rewrite addImageToHubCheckQueue_eq.
    destruct (Images m !! sha) as [info|] eqn:Hl; [|done].
    destruct (ImageInfo_ScanStatus info); try done; intros [= <-];
      (split; [|done]);
      by eapply keepsRecords_insert.
  - rewrite addImageToScanQueue_eq.
    destruct (Images m !! sha) as [info|] eqn:Hl; [|done].
    destruct (ImageInfo_ScanStatus info); try done; intros [= <-];
      (split; [|done]);
      by eapply keepsRecords_insert.
  - intros [a H]%discard_inv. revert H.
    rewrite getNextImageFromHubCheckQueue_eq.
    destruct (ImageHubCheckQueue m) as [|first rest];
      [intros [= <- <-]; split; [apply keepsRecords_refl|done]|].
    destruct (Images m !! Sha first) as [info|] eqn:Hl; [|done].
    destruct (decide _); [|done]. intros [= <- <-]. split; [|done].
    by eapply keepsRecords_insert.
  - intros [a H]%discard_inv. revert H.
    rewrite getNextImageFromScanQueue_eq.
    destruct (decide _);
      [intros [= <- <-]; split; [apply keepsRecords_refl|done]|].
    destruct (ImageScanQueue m) as [|first rest];
      [intros [= <- <-]; split; [apply keepsRecords_refl|done]|].
    destruct (Images m !! Sha first) as [info|] eqn:Hl; [|done].
    destruct (decide _); [|done]. intros [= <- <-]. split; [|done].
    by eapply keepsRecords_insert.
  - rewrite errorRunningScanClient_eq.
    destruct (Images m !! Sha img) as [info|] eqn:Hl; [|done].
    destruct (decide _); [|done]. intros [= <-]. split; [|done].
    by eapply keepsRecords_insert.
  - rewrite finishRunningScanClient_eq.
    destruct (Images m !! Sha img) as [info|] eqn:Hl; [|done].
    destruct (decide _); [|done]. intros [= <-]. split; [|done].
    by eapply keepsRecords_insert.
  - rewrite ReportAnalysisComplete_eq.
    destruct (Images m !! Sha img) as [info|] eqn:Hl; [|done].
    destruct (decide _); [|done]. intros [= <-]. split; [|done].
    by eapply keepsRecords_insert.
Qed.

(** X3. No run of operations ever drops or renames an image record, or
    changes the scan limit: a record present before a run that returns is
    present after it, under the same key, with the same sha and name. In
    particular deleting every pod that uses an image leaves its record in
    the registry. *)
Theorem records_are_never_dropped (ops : list Op) (m m' : Model)
  (sha : DockerImageSha) (info : ImageInfo) :
  runAll ops m = Ok tt m' →
  Images m !! sha = Some info →
  (∃ info', Images m' !! sha = Some info'
            ∧ ImageInfo_ImageSha info' = ImageInfo_ImageSha info
            ∧ ImageInfo_ImageName info' = ImageInfo_ImageName info)
  ∧ ConcurrentScanLimit m' = ConcurrentScanLimit m.
Proof.
  intros Hrun Hl.
  assert (keepsRecords m m'
          ∧ ConcurrentScanLimit m' = ConcurrentScanLimit m) as [HK HL].
  { revert Hrun. unfold runAll.
    apply (forEach_preserves
      (λ x, keepsRecords m x
            ∧ ConcurrentScanLimit x = ConcurrentScanLimit m));
      [|split; [apply keepsRecords_refl|done]].
    intros op x x' [HK HL] [HK' HL']%run_keepsRecords.
    split; [by eapply keepsRecords_trans|congruence]. }
  split; [by apply HK|done].
Qed.

Lemma records_are_never_dropped_witness :
  (∃ info',
      Images (stateOf (runAll [ OpFinishRunningScanClient imageA;
                                OpDeletePod "ns/P" ] busyModel)) !! "sha-a"
      = Some info'
      ∧ ImageInfo_ImageSha info' = "sha-a"
      ∧ ImageInfo_ImageName info' = "a")
  ∧ ConcurrentScanLimit
      (stateOf (runAll [ OpFinishRunningScanClient imageA;
                         OpDeletePod "ns/P" ] busyModel)) = 1.
Proof.
  apply (records_are_never_dropped
           [OpFinishRunningScanClient imageA; OpDeletePod "ns/P"]
           busyModel _ "sha-a"
           (setScanStatus ScanStatusRunningScanClient
              (NewImageInfo "sha-a" "a")));
    vm_compute; reflexivity.
Defined.

(** ** Adding a pod *)

Lemma registerAll_spec (cs : list Container) m :
  ∃ m', forEach cs (λ c, AddImage (Container_Image c)) m = Ok tt m'
        ∧ Pods m' = Pods m
        ∧ ImageScanQueue m' = ImageScanQueue m
        ∧ (∃ new, ImageHubCheckQueue m' = ImageHubCheckQueue m ++ new)
        ∧ (∀ c, c ∈ cs → is_Some (Images m' !! Sha (Container_Image c)))
        ∧ (∀ sha info, Images m !! sha = Some info →
                       Images m' !! sha = Some info)
        ∧ (∀ sha info', Images m' !! sha = Some info' →
             Images m !! sha = None →
             ImageInfo_ScanStatus info' = ScanStatusInHubCheckQueue
             ∧ ImageInfo_ScanResults info' = None
             ∧ sha ∈ Sha <$> ImageHubCheckQueue m').
Proof.
  revert m. induction cs as [|c cs IH]; intros m.
  - exists m. cbn. repeat split; try done.
    + exists []. by rewrite app_nil_r.
    + by intros c ?%elem_of_nil.
    + congruence.
    + congruence.
    + congruence.
  - cbn [forEach].
    destruct (AddImage_total (Container_Image c) m) as [m1 H1].
    rewrite (bind_Ok _ _ _ _ _ H1).
    destruct (IH m1) as (m' & Hrun & Hp & Hq & [new Hh] & Hcs & Hkeep & Hnew).
    exists m'. split; [done|].
    revert H1. rewrite AddImage_eq.
    destruct (Images m !! Sha (Container_Image c)) as [i|] eqn:Hl;
      intros [= <-].
    + refine (conj Hp (conj Hq (conj (ex_intro _ new Hh)
                (conj _ (conj Hkeep Hnew))))).
      intros c' [->|Hin]%elem_of_cons; [|by apply Hcs].
      rewrite (Hkeep _ i Hl). by eexists.
    + cbn [Pods Images ImageScanQueue ImageHubCheckQueue] in *.
      assert (Images m' !! Sha (Container_Image c)
              = Some (setScanStatus ScanStatusInHubCheckQueue
                        (NewImageInfo (Sha (Container_Image c))
                           (Name (Container_Image c))))) as Hc.
      { apply Hkeep. by rewrite lookup_insert_eq. }
      split; [done|]. split; [done|]. split.
      { exists (Container_Image c :: new). by rewrite Hh, <-app_assoc. }
      split.
      { intros c' [->|Hin]%elem_of_cons; [|by apply Hcs].
        rewrite Hc. by eexists. }
      split.
      { intros sha info Hs. apply Hkeep.
        rewrite lookup_insert_ne; [done|]. congruence. }
      intros sha info' Hs Hn.
      destruct (decide (sha = Sha (Container_Image c))) as [->|Hne].
      * rewrite Hc in Hs. injection Hs as <-. split; [done|].
        split; [done|]. rewrite Hh, fmap_app, elem_of_app. left.
        apply elem_of_fmap_last.
      * apply (Hnew sha info' Hs). by rewrite lookup_insert_ne.
Qed.

(** X4. AddPod never panics. It files the pod under its qualified name,
    replacing whatever pod was there; afterwards every image of the
    pod's containers has a record; records that existed are untouched;
    a record it creates is in status InHubCheckQueue, without results,
    with its sha in the hub-check queue, which only grows at its tail;
    the scan queue and the other pods are as before. *)
Theorem AddPod_registers_pod_and_images (m : Model) (newPod : Pod) :
  ∃ m', AddPod newPod m = Ok tt m'
        ∧ Pods m' = <[QualifiedName newPod := newPod]> (Pods m)
        ∧ (∀ c, c ∈ Containers newPod →
                is_Some (Images m' !! Sha (Container_Image c)))
        ∧ (∀ sha info, Images m !! sha = Some info →
                       Images m' !! sha = Some info)
        ∧ (∀ sha info', Images m' !! sha = Some info' →
             Images m !! sha = None →
             ImageInfo_ScanStatus info' = ScanStatusInHubCheckQueue
             ∧ ImageInfo_ScanResults info' = None
             ∧ sha ∈ Sha <$> ImageHubCheckQueue m')
        ∧ (∃ new, ImageHubCheckQueue m' = ImageHubCheckQueue m ++ new)
        ∧ ImageScanQueue m' = ImageScanQueue m.
Proof.
  destruct (registerAll_spec (Containers newPod) m)
    as (m1 & Hrun & Hp & Hq & Hh & Hcs & Hkeep & Hnew).
  exists (withPods (insert (QualifiedName newPod) newPod) m1).
  split.
  { unfold AddPod. by rewrite (bind_Ok _ _ _ _ _ Hrun). }
  cbn [withPods Pods Images ImageScanQueue ImageHubCheckQueue].
  rewrite Hp. by refine (conj _ (conj Hcs (conj Hkeep (conj Hnew
                           (conj Hh Hq))))).
Qed.

Lemma scanResults_Some podName pod m :
  Pods m !! podName = Some pod →
  scanResults podName m
  = (GoInt.wrap (sumZ (PolicyViolationCount
                         <$> completedResults m (Containers pod))),
     GoInt.wrap (sumZ (VulnerabilityCount
                         <$> completedResults m (Containers pod))),
     lastViolation (completedResults m (Containers pod)), None).
Proof.
  intros Hp. unfold scanResults. rewrite Hp, scanResults_loop.
  change 0 with (GoInt.wrap 0) at 1 2. by rewrite !foldl_add_wrap.
Qed.

Lemma completedResults_ext m m' cs :
  (∀ c, c ∈ cs → contribution m' c = contribution m c) →
  completedResults m' cs = completedResults m cs.
Proof.
  unfold completedResults. induction cs as [|c cs IH]; intros H; [done|].
  cbn [omap list_omap]. rewrite (H c) by by left.
  rewrite IH; [done|]. intros c' Hin. apply H. by right.
Qed.

(** X5. Asking for the results of a pod right after AddPod never gives
    the not-found error, and the aggregate it gives is the one of the
    records that were complete before the call: an image the call
    registers is queued for its hub check and adds nothing. *)
Theorem AddPod_then_scanResults (m : Model) (newPod : Pod) :
  ∃ m', AddPod newPod m = Ok tt m'
        ∧ scanResults (QualifiedName newPod) m'
          = (GoInt.wrap (sumZ (PolicyViolationCount
                <$> completedResults m (Containers newPod))),
             GoInt.wrap (sumZ (VulnerabilityCount
                <$> completedResults m (Containers newPod))),
             lastViolation (completedResults m (Containers newPod)), None).
Proof.
  destruct (registerAll_spec (Containers newPod) m)
    as (m1 & Hrun & Hp & Hq & Hh & Hcs & Hkeep & Hnew).
  exists (withPods (insert (QualifiedName newPod) newPod) m1).
  split.
  { unfold AddPod. by rewrite (bind_Ok _ _ _ _ _ Hrun). }
  rewrite (scanResults_Some _ newPod) by (cbn; by rewrite lookup_insert_eq).
  rewrite (completedResults_ext m); [done|].
  intros c _. unfold contribution. cbn [withPods Images].
  destruct (Images m !! Sha (Container_Image c)) as [info|] eqn:Hl.
  - by rewrite (Hkeep _ info Hl).
  - destruct (Images m1 !! Sha (Container_Image c)) as [info'|] eqn:Hl';
      [|done].
    destruct (Hnew _ info' Hl' Hl) as (Hst & _ & _). cbn.
    rewrite decide_False; [done|]. rewrite Hst. discriminate.
Qed.

(** ** What is in progress *)

Lemma inProgressScanJobs_filter m :
  inProgressScanJobs m = (filter inProgress (map_to_list (Images m))).*1.
Proof.
  unfold inProgressScanJobs. generalize (map_to_list (Images m)). intros l.
  assert (∀ acc : list string,
    foldl (λ inProgressShas (kv : string * ImageInfo),
             if isInProgress (ImageInfo_ScanStatus kv.2)
             then inProgressShas ++ [kv.1] else inProgressShas) acc l
    = acc ++ (filter inProgress l).*1) as Hgen.
  { induction l as [|kv l IH]; intros acc; cbn [foldl].
    - by rewrite app_nil_r.
    - rewrite IH, filter_cons.
      destruct (isInProgress (ImageInfo_ScanStatus kv.2)) eqn:E.
      + rewrite decide_True by done. by rewrite fmap_cons, <-app_assoc.
      + by rewrite decide_False by (unfold inProgress; congruence). }
  apply (Hgen []).
Qed.

Lemma inProgressHubScans_filter m :
  inProgressHubScans m
  = (λ kv, image kv.2) <$> filter hubScanRunning (map_to_list (Images m)).
Proof.
  unfold inProgressHubScans. generalize (map_to_list (Images m)). intros l.
  assert (∀ acc : list Image,
    foldl (λ acc (kv : string * ImageInfo),
             match ImageInfo_ScanStatus kv.2 with
             | ScanStatusRunningHubScan => acc ++ [image kv.2]
             | _ => acc
             end) acc l
    = acc ++ ((λ kv, image kv.2) <$> filter hubScanRunning l)) as Hgen.
  { induction l as [|kv l IH]; intros acc; cbn [foldl].
    - by rewrite app_nil_r.
    - rewrite IH, filter_cons.
      destruct (decide (hubScanRunning kv)) as [Hd|Hd];
        unfold hubScanRunning in Hd.
      + rewrite Hd. by rewrite fmap_cons, <-app_assoc.
      + by destruct (ImageInfo_ScanStatus kv.2). }
  apply (Hgen []).
Qed.

Lemma length_filter_impl {A} (P Q : A → Prop) `{!∀ x, Decision (P x)}
  `{!∀ x, Decision (Q x)} (l : list A) :
  (∀ x, P x → Q x) → (length (filter P l) ≤ length (filter Q l))%nat.
Proof.
  intros HPQ. induction l as [|x l IH]; [done|].
  rewrite !filter_cons. destruct (decide (P x)) as [HP|HP].
  - rewrite decide_True by auto. cbn. lia.
  - destruct (decide (Q x)); cbn; lia.
Qed.

(** X6. inProgressScanJobs returns exactly the shas whose record is in
    status RunningScanClient or RunningHubScan, each once. *)
Theorem inProgressScanJobs_lists_running_records (m : Model) :
  (∀ sha, sha ∈ inProgressScanJobs m
          ↔ ∃ info, Images m !! sha = Some info
                    ∧ (ImageInfo_ScanStatus info = ScanStatusRunningScanClient
                       ∨ ImageInfo_ScanStatus info
                         = ScanStatusRunningHubScan))
  ∧ NoDup (inProgressScanJobs m).
Proof.
  rewrite inProgressScanJobs_filter. split.
  - intros sha. rewrite list_elem_of_fmap. split.
    + intros ([k info] & -> & [Hp Hin]%list_elem_of_filter).
      apply elem_of_map_to_list in Hin. exists info. split; [done|].
      unfold inProgress in Hp. cbn in *.
      destruct (ImageInfo_ScanStatus info); try done; auto.
    + intros (info & Hl & Hst). exists (sha, info). split; [done|].
      apply list_elem_of_filter. split; [|by apply elem_of_map_to_list].
      unfold inProgress. cbn. by destruct Hst as [-> | ->].
  - eapply sublist_NoDup; [apply (NoDup_fst_map_to_list (Images m))|].
    apply fmap_sublist, sublist_filter.
Qed.

Lemma reachable_limit N m : reachable N m → ConcurrentScanLimit m = N.
Proof.
  induction 1 as [|m op m' _ IH Hrun]; [done|].
  apply run_keepsRecords in Hrun as [_ ?]. congruence.
Qed.

Lemma hubScanModel_reachable : reachable 1 hubScanModel.
Proof.
  apply (runAll_reachable 1
           (queuedOps ++ [ OpGetNextImageFromScanQueue;
                           OpFinishRunningScanClient imageA ])
           (NewModel 1)); [constructor|].
  vm_compute. reflexivity.
Defined.

Lemma inProgressHubScans_elem m img :
  img ∈ inProgressHubScans m
  ↔ ∃ sha info, Images m !! sha = Some info
                ∧ ImageInfo_ScanStatus info = ScanStatusRunningHubScan
                ∧ img = image info.
Proof.
  rewrite inProgressHubScans_filter, list_elem_of_fmap. split.
  - intros ([k info] & -> & [Hp Hin]%list_elem_of_filter).
    apply elem_of_map_to_list in Hin. by exists k, info.
  - intros (sha & info & Hl & Hst & ->). exists (sha, info).
    split; [done|]. apply list_elem_of_filter.
    split; [done|]. by apply elem_of_map_to_list.
Qed.

(** X7. inProgressHubScans returns exactly the images (sha and name) of
    the records in status RunningHubScan, and never more of them than
    inProgressScanCount counts; in a state a run can reach, each of them
    is listed once and its sha is among the jobs in progress. *)
Theorem inProgressHubScans_lists_hub_scans (m : Model) :
  (∀ img, img ∈ inProgressHubScans m
          ↔ ∃ sha info, Images m !! sha = Some info
                        ∧ ImageInfo_ScanStatus info = ScanStatusRunningHubScan
                        ∧ img = image info)
  ∧ Z.of_nat (length (inProgressHubScans m)) <= inProgressScanCount m
  ∧ (∀ N, reachable N m →
          NoDup (Sha <$> inProgressHubScans m)
          ∧ ∀ img, img ∈ inProgressHubScans m →
                   Sha img ∈ inProgressScanJobs m).
Proof.
  split; [|split].
  - apply inProgressHubScans_elem.
  - unfold inProgressScanCount.
    rewrite inProgressScanJobs_filter, inProgressHubScans_filter.
    rewrite !length_fmap. apply inj_le, length_filter_impl.
    intros [k info]. unfold hubScanRunning, inProgress. cbn.
    by intros ->.
  - intros N Hr. pose proof (reachable_consistent N m Hr) as Hc.
    assert (Sha <$> inProgressHubScans m
            = (filter hubScanRunning (map_to_list (Images m))).*1) as E.
    { rewrite inProgressHubScans_filter, <-list_fmap_compose.
      apply list_fmap_ext. intros i [k info] Hi.
      apply list_elem_of_lookup_2, list_elem_of_filter in Hi as [_ Hin].
      apply elem_of_map_to_list in Hin. cbn.
      exact (consistent_keys m Hc k info Hin). }
    split.
    + rewrite E.
      eapply sublist_NoDup; [apply (NoDup_fst_map_to_list (Images m))|].
      apply fmap_sublist, sublist_filter.
    + intros img Hin.
      assert (Sha img ∈ Sha <$> inProgressHubScans m) as Hin'
        by (apply list_elem_of_fmap; by exists img).
      rewrite E in Hin'. rewrite inProgressScanJobs_filter.
      apply list_elem_of_fmap in Hin' as ([k info] & -> & [Hp Hl]%list_elem_of_filter).
      apply list_elem_of_fmap. exists (k, info). split; [done|].
      apply list_elem_of_filter. split; [|done].
      unfold hubScanRunning in Hp. unfold inProgress. cbn in *.
      by rewrite Hp.
Qed.

Lemma inProgressHubScans_lists_hub_scans_witness :
  inProgressHubScans hubScanModel = [imageA]
  ∧ NoDup (Sha <$> inProgressHubScans hubScanModel)
  ∧ ∀ img, img ∈ inProgressHubScans hubScanModel →
           Sha img ∈ inProgressScanJobs hubScanModel.
Proof.
  split; [vm_compute; reflexivity|].
  destruct (inProgressHubScans_lists_hub_scans hubScanModel) as (_ & _ & H).
  exact (H 1 hubScanModel_reachable).
Defined.

(** ** Capacity accounting *)

Lemma run_count op m m' :
  run op m = Ok tt m' →
  (isReport op = true → S (activeScanCount m') = activeScanCount m)
  ∧ (isReport op = false → op ≠ OpGetNextImageFromScanQueue →
     activeScanCount m' = activeScanCount m)
  ∧ (op = OpGetNextImageFromScanQueue →
     m' = m
     ∨ Z.of_nat (activeScanCount m) < ConcurrentScanLimit m
       ∧ activeScanCount m' = S (activeScanCount m)).
Proof.
  destruct op; cbn [run isReport].
  - intros [_ ?]%AddPod_count. by repeat split.
  - intros [= <-]. by repeat split.
  - intros [_ ?]%AddImage_count. by repeat split.
  - intros [_ ?]%addImageToHubCheckQueue_count. by repeat split.
  - intros [_ ?]%addImageToScanQueue_count. by repeat split.
  - intros [a [_ ?]%getNextImageFromHubCheckQueue_count]%discard_inv.
    by repeat split.
  - intros [a [_ ?]%getNextImageFromScanQueue_count]%discard_inv.
    by repeat split.
  - intros [_ ?]%errorRunningScanClient_count. by repeat split.
  - intros [_ ?]%finishRunningScanClient_count. by repeat split.
  - intros [_ ?]%ReportAnalysisComplete_count. by repeat split.
Qed.

(** X8. When the scan client of an image finishes, the image keeps its
    slot: finishRunningScanClient on a record in RunningScanClient moves
    it to RunningHubScan, lists its image among the hub scans in
    progress, and leaves inProgressScanCount and both queues as they
    were; so a gate that was closed stays closed. *)
Theorem finished_scan_client_keeps_its_slot (m : Model) (img : Image)
  (info : ImageInfo) :
  Images m !! Sha img = Some info →
  ImageInfo_ScanStatus info = ScanStatusRunningScanClient →
  ∃ m', finishRunningScanClient img m = Ok tt m'
        ∧ statusOf m' (Sha img) = Some ScanStatusRunningHubScan
        ∧ image info ∈ inProgressHubScans m'
        ∧ inProgressScanCount m' = inProgressScanCount m
        ∧ ImageScanQueue m' = ImageScanQueue m
        ∧ ImageHubCheckQueue m' = ImageHubCheckQueue m
        ∧ (inProgressScanCount m >= ConcurrentScanLimit m →
           getNextImageFromScanQueue m' = Ok None m').
Proof.
  intros Hl Hst.
  pose proof (finishRunningScanClient_eq img m) as E.
  rewrite Hl, decide_True in E by done.
  eexists. split; [exact E|].
  apply finishRunningScanClient_count in E as [HL HC].
  split; [apply statusOf_insert_eq|]. split.
  { apply inProgressHubScans_elem.
    exists (Sha img), (setScanStatus ScanStatusRunningHubScan info).
    cbn. by rewrite lookup_insert_eq. }
  rewrite !inProgressScanCount_spec, HC.
  split; [done|]. split; [done|]. split; [done|].
  intros Hge. rewrite getNextImageFromScanQueue_eq, HC.
  rewrite decide_True; [done|]. cbn in *. lia.
Qed.

Lemma finished_scan_client_keeps_its_slot_witness :
  ∃ m', finishRunningScanClient imageA busyModel = Ok tt m'
        ∧ statusOf m' "sha-a" = Some ScanStatusRunningHubScan
        ∧ inProgressScanCount m' = inProgressScanCount busyModel
        ∧ getNextImageFromScanQueue m' = Ok None m'.
Proof.
  destruct (finished_scan_client_keeps_its_slot busyModel imageA
              (setScanStatus ScanStatusRunningScanClient
                 (NewImageInfo "sha-a" "a")))
    as (m' & H1 & H2 & _ & H4 & _ & _ & H7);
    [vm_compute; reflexivity|reflexivity|].
  exists m'. split; [exact H1|]. split; [exact H2|]. split; [exact H4|].
  apply H7. vm_compute. discriminate.
Defined.

(** X9. Capacity accounting over all operations: a call that returns
    lowers inProgressScanCount, by exactly one, only if it is
    errorRunningScanClient or the report that the analysis is complete;
    getNextImageFromScanQueue leaves the model as it is or raises the
    count by one, and only below the limit; every other operation leaves
    the count as it is. So an image whose scan is never reported back
    holds its slot for good. *)
Theorem only_reports_free_capacity (op : Op) (m m' : Model) :
  run op m = Ok tt m' →
  (isReport op = true →
   inProgressScanCount m' = inProgressScanCount m - 1)
  ∧ (isReport op = false → op ≠ OpGetNextImageFromScanQueue →
     inProgressScanCount m' = inProgressScanCount m)
  ∧ (op = OpGetNextImageFromScanQueue →
     m' = m
     ∨ inProgressScanCount m < ConcurrentScanLimit m
       ∧ inProgressScanCount m' = inProgressScanCount m + 1).
Proof.
  intros (H1 & H2 & H3)%run_count. rewrite !inProgressScanCount_spec.
  split; [|split].
  - intros Hr. specialize (H1 Hr). lia.
  - intros Hr Hne. specialize (H2 Hr Hne). lia.
  - intros ->. destruct (H3 eq_refl) as [->|[? ?]]; [by left|right]. lia.
Qed.

Lemma only_reports_free_capacity_witness :
  inProgressScanCount
    (stateOf (run (OpErrorRunningScanClient imageA) busyModel))
  = inProgressScanCount busyModel - 1.
Proof.
  destruct (only_reports_free_capacity (OpErrorRunningScanClient imageA)
              busyModel
              (stateOf (run (OpErrorRunningScanClient imageA) busyModel)))
    as (H & _ & _); [vm_compute; reflexivity|].
  apply H. reflexivity.
Defined.

Lemma activeScanCount_zero m sha info :
  activeScanCount m = 0%nat →
  Images m !! sha = Some info →
  isInProgress (ImageInfo_ScanStatus info) = false.
Proof.
  unfold activeScanCount, countP. intros H0 Hl.
  apply length_zero_iff_nil in H0.
  destruct (isInProgress (ImageInfo_ScanStatus info)) eqn:E; [|done].
  assert ((sha, info) ∈ filter inProgress (map_to_list (Images m))) as Hin.
  { apply list_elem_of_filter. split; [done|]. by apply elem_of_map_to_list. }
  rewrite H0 in Hin. by apply elem_of_nil in Hin.
Qed.

Lemma reachable_idle N m : N <= 0 → reachable N m → activeScanCount m = 0%nat.
Proof.
  intros HN. induction 1 as [|m op m' Hr IH Hrun].
  - unfold activeScanCount. cbn. apply countP_empty.
  - pose proof (reachable_limit N m Hr) as HL.
    apply run_count in Hrun as (H1 & H2 & H3).
    destruct (isReport op) eqn:Hrep.
    + specialize (H1 eq_refl). lia.
    + assert (op = OpGetNextImageFromScanQueue
              ∨ op ≠ OpGetNextImageFromScanQueue) as [->|Hne]
        by (destruct op; (by left) || (by right)).
      * destruct (H3 eq_refl) as [->|[? ?]]; [done|lia].
      * rewrite (H2 eq_refl Hne). done.
Qed.

Lemma stalledModel_reachable : reachable 0 stalledModel.
Proof.
  apply (runAll_reachable 0 queuedOps (NewModel 0)); [constructor|].
  vm_compute. reflexivity.
Defined.

(** X10. A model created with a limit of zero or less never starts a
    scan: in every state it can reach, getNextImageFromScanQueue returns
    nil and leaves the model as it is, however many images wait in the
    scan queue, and no record is in status RunningScanClient or
    RunningHubScan. *)
Theorem nonpositive_limit_never_scans (N : Z) (m : Model) :
  N <= 0 → reachable N m →
  getNextImageFromScanQueue m = Ok None m
  ∧ inProgressScanJobs m = []
  ∧ ∀ sha info, Images m !! sha = Some info →
                ImageInfo_ScanStatus info ≠ ScanStatusRunningScanClient
                ∧ ImageInfo_ScanStatus info ≠ ScanStatusRunningHubScan.
Proof.
  intros HN Hr. pose proof (reachable_idle N m HN Hr) as H0.
  pose proof (reachable_limit N m Hr) as HL.
  split; [|split].
  - rewrite getNextImageFromScanQueue_eq, decide_True; [done|]. lia.
  - apply length_zero_iff_nil. by rewrite inProgressScanJobs_length.
  - intros sha info Hl. pose proof (activeScanCount_zero m sha info H0 Hl).
    split; intros E; rewrite E in *; done.
Qed.

Lemma nonpositive_limit_never_scans_witness :
  ImageScanQueue stalledModel = [imageA; imageB]
  ∧ getNextImageFromScanQueue stalledModel = Ok None stalledModel.
Proof.
  split; [vm_compute; reflexivity|].
  destruct (nonpositive_limit_never_scans 0 stalledModel) as (H & _ & _);
    [lia|exact stalledModel_reachable|exact H].
Defined.

Lemma queuedModel_reachable : reachable 1 queuedModel.
Proof.
  apply (runAll_reachable 1 queuedOps (NewModel 1)); [constructor|].
  vm_compute. reflexivity.
Defined.

(** X11. In a state a run can reach, getNextImageFromScanQueue never
    panics. It returns nil, leaving the model as it is, exactly when the
    count of scans in progress has reached the limit or the scan queue is
    empty; otherwise it returns the head of the scan queue, removes it
    from the queue, moves its record to RunningScanClient and raises the
    count by one, leaving the hub-check queue alone. *)
Theorem scan_dequeue_on_reachable_states (N : Z) (m : Model) :
  reachable N m →
  ((inProgressScanCount m >= N ∨ ImageScanQueue m = []) →
   getNextImageFromScanQueue m = Ok None m)
  ∧ (∀ first rest,
       inProgressScanCount m < N →
       ImageScanQueue m = first :: rest →
       ∃ m', getNextImageFromScanQueue m = Ok (Some first) m'
             ∧ ImageScanQueue m' = rest
             ∧ ImageHubCheckQueue m' = ImageHubCheckQueue m
             ∧ statusOf m' (Sha first) = Some ScanStatusRunningScanClient
             ∧ inProgressScanCount m' = inProgressScanCount m + 1
             ∧ reachable N m').
Proof.
  intros Hr. pose proof (reachable_consistent N m Hr) as Hc.
  pose proof (reachable_limit N m Hr) as HL.
  rewrite !inProgressScanCount_spec. split.
  - intros Hcase. rewrite getNextImageFromScanQueue_eq.
    destruct (decide _) as [|Hlt]; [done|].
    destruct Hcase as [?|Hq]; [lia|by rewrite Hq].
  - intros first rest Hlt Hq.
    assert (first ∈ ImageScanQueue m) as Hin by (rewrite Hq; by left).
    pose proof (consistent_scan m Hc first Hin) as Hst.
    unfold statusOf in Hst.
    destruct (Images m !! Sha first) as [info|] eqn:Hl; [|done].
    injection Hst as Hst.
    pose proof (getNextImageFromScanQueue_eq m) as E.
    rewrite decide_False, Hq, Hl, decide_True in E by (done || lia).
    eexists. split; [exact E|].
    split; [done|]. split; [done|]. split; [apply statusOf_insert_eq|].
    split.
    + rewrite inProgressScanCount_spec.
      apply getNextImageFromScanQueue_count in E as [_ [Hsame|[_ HS]]].
      * exfalso. apply (f_equal ImageScanQueue) in Hsame. cbn in Hsame.
        rewrite Hq in Hsame. apply (f_equal length) in Hsame.
        cbn in Hsame. lia.
      * lia.
    + eapply (reachable_step N m OpGetNextImageFromScanQueue); [done|].
      cbn [run]. by rewrite discard_eq, E.
Qed.

Lemma scan_dequeue_on_reachable_states_witness :
  ∃ m', getNextImageFromScanQueue queuedModel = Ok (Some imageA) m'
        ∧ ImageScanQueue m' = [imageB]
        ∧ inProgressScanCount m' = inProgressScanCount queuedModel + 1.
Proof.
  destruct (scan_dequeue_on_reachable_states 1 queuedModel
              queuedModel_reachable) as [_ H].
  destruct (H imageA [imageB]) as (m' & H1 & H2 & _ & _ & H5 & _);
    [vm_compute; reflexivity|vm_compute; reflexivity|].
  exists m'. split; [exact H1|]. split; [exact H2|exact H5].
Defined.

Lemma AddPod_registers_pod_and_images_witness :
  ∃ m', AddPod podQ busyModel = Ok tt m'
        ∧ Pods m' !! "ns/Q" = Some podQ
        ∧ is_Some (Images m' !! "sha-a")
        ∧ ImageScanQueue m' = [imageB].
Proof.
  destruct (AddPod_registers_pod_and_images busyModel podQ)
    as (m' & H1 & H2 & H3 & _ & _ & _ & H7).
  exists m'. split; [exact H1|]. split; [|split].
  - rewrite H2. apply lookup_insert_eq.
  - apply (H3 (mkContainer imageA "c")). vm_compute. left.
  - rewrite H7. vm_compute. reflexivity.
Defined.

Lemma inProgressScanJobs_lists_running_records_witness :
  "sha-a" ∈ inProgressScanJobs busyModel
  ∧ NoDup (inProgressScanJobs busyModel).
Proof.
  destruct (inProgressScanJobs_lists_running_records busyModel) as [H1 H2].
  split; [|exact H2]. apply H1.
  exists (setScanStatus ScanStatusRunningScanClient
            (NewImageInfo "sha-a" "a")).
  split; [vm_compute; reflexivity|left; reflexivity].
Defined.

(** ** Results *)

Lemma noResults_update m m' k info0 st :
  noResults m →
  Images m' = <[k := setScanStatus st info0]> (Images m) →
  Images m !! k = Some info0 →
  st ≠ ScanStatusComplete →
  noResults m'.
Proof.
  intros Hn Himg Hk Hst sha info. rewrite Himg, lookup_insert.
  case_decide as Hd; [|by apply Hn].
  intros [= <-]. split; [done|]. exact (proj2 (Hn k info0 Hk)).
Qed.

Lemma AddImage_noResults img m m' :
  noResults m → AddImage img m = Ok tt m' → noResults m'.
Proof.
  intros Hn. rewrite AddImage_eq.
  destruct (Images m !! Sha img) as [i|] eqn:Hl; intros [= <-]; [done|].
  intros sha info. cbn [Images]. rewrite lookup_insert.
  case_decide as Hd; [|by apply Hn]. by intros [= <-].
Qed.

Lemma run_noResults op m m' :
  isLive op = true → noResults m → run op m = Ok tt m' → noResults m'.
Proof.
  intros Hlive Hn. destruct op; cbn [run]; try done.
  - intros (u & m1 & H1 & H2)%bind_inv_Ok. destruct u. injection H2 as <-.
    change (noResults m1). revert H1.
    apply (forEach_preserves noResults); [|done].
    intros c x x'. apply AddImage_noResults.
  - by intros [= <-].
  - by apply AddImage_noResults.
  - rewrite addImageToHubCheckQueue_eq.
    destruct (Images m !! sha) as [info|] eqn:Hl; [|done].
    destruct (ImageInfo_ScanStatus info); try done; intros [= <-];
      by eapply (noResults_update m).
  - rewrite addImageToScanQueue_eq.
    destruct (Images m !! sha) as [info|] eqn:Hl; [|done].
    destruct (ImageInfo_ScanStatus info); try done; intros [= <-];
      by eapply (noResults_update m).
  - intros [a H]%discard_inv. revert H.
    rewrite getNextImageFromHubCheckQueue_eq.
    destruct (ImageHubCheckQueue m) as [|first rest];
      [by intros [= <- <-]|].
    destruct (Images m !! Sha first) as [info|] eqn:Hl; [|done].
    destruct (decide _); [|done]. intros [= <- <-].
    by eapply (noResults_update m).
  - intros [a H]%discard_inv. revert H.
    rewrite getNextImageFromScanQueue_eq.
    destruct (decide _); [by intros [= <- <-]|].
    destruct (ImageScanQueue m) as [|first rest]; [by intros [= <- <-]|].
    destruct (Images m !! Sha first) as [info|] eqn:Hl; [|done].
    destruct (decide _); [|done]. intros [= <- <-].
    by eapply (noResults_update m).
  - rewrite errorRunningScanClient_eq.
    destruct (Images m !! Sha img) as [info|] eqn:Hl; [|done].
    destruct (decide _); [|done]. intros [= <-].
    by eapply (noResults_update m).
  - rewrite finishRunningScanClient_eq.
    destruct (Images m !! Sha img) as [info|] eqn:Hl; [|done].
    destruct (decide _); [|done]. intros [= <-].
    by eapply (noResults_update m).
Qed.

Lemma completedResults_noResults m cs :
  noResults m → completedResults m cs = [].
Proof.
  intros Hn. unfold completedResults.
  induction cs as [|c cs IH]; [done|]. cbn [omap list_omap].
  rewrite IH. unfold contribution.
  destruct (Images m !! Sha (Container_Image c)) as [info|] eqn:Hl; [|done].
  cbn. destruct (Hn _ info Hl) as [Hst _]. by rewrite decide_False.
Qed.

(** X12. The methods that are live in model.go never complete an image:
    after any run of them from a new model, no record is in status
    Complete or has results, so scanResults gives zero counts and an
    empty overall status for every pod it finds. *)
Theorem live_methods_never_complete (N : Z) (ops : list Op) (m : Model) :
  Forall (λ op, isLive op = true) ops →
  runAll ops (NewModel N) = Ok tt m →
  (∀ sha info, Images m !! sha = Some info →
     ImageInfo_ScanStatus info ≠ ScanStatusComplete
     ∧ ImageInfo_ScanResults info = None)
  ∧ (∀ podName, is_Some (Pods m !! podName) →
                scanResults podName m = (0, 0, "", None)).
Proof.
  intros Hlive Hrun.
  assert (noResults m) as Hn.
  { assert (noResults (NewModel N)) as H0.
    { intros sha info H. cbn in H. by rewrite lookup_empty in H. }
    revert Hlive Hrun H0. generalize (NewModel N). unfold runAll.
    induction ops as [|op ops IH]; intros m0 Hlive; cbn [forEach].
    - by intros [= <-].
    - apply Forall_cons in Hlive as [Hop Hlive].
      intros (u & m1 & H1 & H2)%bind_inv_Ok H0. destruct u.
      apply (IH m1 Hlive H2). by eapply run_noResults. }
  split; [exact Hn|].
  intros podName [pod Hp]. rewrite (scanResults_Some _ pod) by done.
  rewrite completedResults_noResults by done. reflexivity.
Qed.

Lemma live_methods_never_complete_witness :
  scanResults "ns/P"
    (stateOf (runAll (queuedOps ++ [ OpGetNextImageFromScanQueue;
                                     OpFinishRunningScanClient imageA ])
                (NewModel 1)))
  = (0, 0, "", None).
Proof.
  destruct (live_methods_never_complete 1
              (queuedOps ++ [ OpGetNextImageFromScanQueue;
                              OpFinishRunningScanClient imageA ])
              (stateOf (runAll (queuedOps ++
                                  [ OpGetNextImageFromScanQueue;
                                    OpFinishRunningScanClient imageA ])
                          (NewModel 1)))) as [_ H].
  - repeat (apply Forall_cons; split; [reflexivity|]). apply Forall_nil.
    exact I.
  - vm_compute. reflexivity.
  - apply H. vm_compute. eexists. reflexivity.
Defined.

Lemma sumZ_replicate (n : nat) (z : Z) : sumZ (replicate n z) = Z.of_nat n * z.
Proof.
  unfold sumZ. induction n as [|n IH]; [done|].
  cbn [replicate foldr]. rewrite IH. lia.
Qed.

Lemma filter_replicate {A} (P : A → Prop) `{!∀ x, Decision (P x)} n (x : A) :
  filter P (replicate n x) = if decide (P x) then replicate n x else [].
Proof.
  induction n as [|n IH]; [by destruct (decide (P x))|].
  cbn [replicate]. rewrite filter_cons, IH. by destruct (decide (P x)).
Qed.

Lemma last_replicate {A} n (x : A) : last (replicate (S n) x) = Some x.
Proof.
  induction n as [|n IH]; [done|].
  change (replicate (S (S n)) x) with (x :: replicate (S n) x).
  by rewrite last_cons, IH.
Qed.

(** X13. An image is counted once per container that runs it: for a pod
    all of whose [n] containers run one image whose record is complete
    with results [r], scanResults gives [n] times the counts of [r] (as
    Go ints), and the status of [r] unless it is the sentinel
    NOT_IN_VIOLATION or the pod has no container. *)
Theorem shared_image_counted_per_container (m : Model) (podName : string)
  (pod : Pod) (info : ImageInfo) (r : ScanResults) :
  Pods m !! podName = Some pod →
  (∀ c, c ∈ Containers pod →
        Images m !! Sha (Container_Image c) = Some info) →
  ImageInfo_ScanStatus info = ScanStatusComplete →
  ImageInfo_ScanResults info = Some r →
  scanResults podName m
  = (GoInt.wrap (Z.of_nat (length (Containers pod))
                 * PolicyViolationCount r),
     GoInt.wrap (Z.of_nat (length (Containers pod)) * VulnerabilityCount r),
     (if decide (OverallStatus r = "NOT_IN_VIOLATION"
                 ∨ Containers pod = [])
      then "" else OverallStatus r),
     None).
Proof.
  intros Hp Hall Hst Hr. rewrite (scanResults_Some _ pod _ Hp).
  assert (completedResults m (Containers pod)
          = replicate (length (Containers pod)) r) as ->.
  { unfold completedResults. revert Hall.
    generalize (Containers pod). intros cs.
    induction cs as [|c cs IH]; intros Hall; [done|].
    cbn [omap list_omap length replicate]. unfold contribution at 1.
    rewrite (Hall c) by by left. cbn.
    rewrite decide_True by done. rewrite Hr, IH; [done|].
    intros c' Hin. apply Hall. by right. }
  rewrite !fmap_replicate, !sumZ_replicate. do 2 f_equal.
  unfold lastViolation. rewrite fmap_replicate, filter_replicate.
  destruct (Containers pod) as [|c cs] eqn:Hcs.
  - cbn [length replicate].
    rewrite (decide_True (P := _ ∨ _)) by auto.
    by destruct (decide (OverallStatus r ≠ "NOT_IN_VIOLATION")).
  - cbn [length]. destruct (decide (OverallStatus r = "NOT_IN_VIOLATION"))
      as [HN|HN].
    + rewrite (decide_True (P := _ ∨ _)) by auto.
      by rewrite (decide_False (P := _ ≠ _)) by auto.
    + rewrite (decide_False (P := _ ∨ _)) by (by intros [?|?]).
      rewrite (decide_True (P := _ ≠ _)) by done.
      by rewrite last_replicate.
Qed.

Lemma shared_image_counted_per_container_witness :
  scanResults "ns/T" twiceModel = (4, 10, "IN_VIOLATION", None).
Proof.
  rewrite (shared_image_counted_per_container twiceModel "ns/T" podTwice
             (setScanResults (Some resultsA)
                (setScanStatus ScanStatusComplete
                   (NewImageInfo "sha-a" "a"))) resultsA).
  - vm_compute. reflexivity.
  - vm_compute. reflexivity.
  - intros c Hc. vm_compute in Hc.
    apply elem_of_cons in Hc as [->|Hc]; [vm_compute; reflexivity|].
    apply elem_of_cons in Hc as [->|Hc]; [vm_compute; reflexivity|].
    by apply elem_of_nil in Hc.
  - reflexivity.
  - reflexivity.
Defined.

Lemma sumZ_Permutation (l l' : list Z) : l ≡ₚ l' → sumZ l = sumZ l'.
Proof.
  unfold sumZ. induction 1 as [|x l l' _ IH|x y l|l l' l'' _ IH1 _ IH2];
    cbn [foldr]; lia.
Qed.

(** X14. The two counts scanResults gives for a pod do not depend on the
    order of the pod's containers, but the overall status does: two pods
    with the same containers in different orders get the same counts,
    and can get different statuses (the status kept is the one of the
    last container that has one other than the sentinel). *)
Theorem counts_ignore_container_order :
  (∀ (m : Model) (name1 name2 : string) (pod1 pod2 : Pod),
     Pods m !! name1 = Some pod1 →
     Pods m !! name2 = Some pod2 →
     Containers pod1 ≡ₚ Containers pod2 →
     ∃ p v s1 s2, scanResults name1 m = (p, v, s1, None)
                  ∧ scanResults name2 m = (p, v, s2, None))
  ∧ (∃ (m : Model) (name1 name2 : string) (pod1 pod2 : Pod) p v s1 s2,
       reachable 2 m
       ∧ Pods m !! name1 = Some pod1
       ∧ Pods m !! name2 = Some pod2
       ∧ Containers pod1 ≡ₚ Containers pod2
       ∧ scanResults name1 m = (p, v, s1, None)
       ∧ scanResults name2 m = (p, v, s2, None)
       ∧ s1 ≠ s2).
Proof.
  split.
  - intros m name1 name2 pod1 pod2 H1 H2 Hperm.
    rewrite (scanResults_Some _ pod1 _ H1), (scanResults_Some _ pod2 _ H2).
    assert (completedResults m (Containers pod1)
            ≡ₚ completedResults m (Containers pod2)) as Hrs
      by (unfold completedResults; by rewrite Hperm).
    do 4 eexists. split; [reflexivity|].
    rewrite (sumZ_Permutation _ _ (fmap_Permutation PolicyViolationCount
                                     _ _ Hrs)).
    rewrite (sumZ_Permutation _ _ (fmap_Permutation VulnerabilityCount
                                     _ _ Hrs)).
    reflexivity.
  - exists orderModel, "ns/AC", "ns/CA", podAC, podCA, 3, 5,
      "IN_VIOLATION_OVERRIDDEN", "IN_VIOLATION".
    split.
    { apply (runAll_reachable 2 orderOps (NewModel 2)); [constructor|].
      vm_compute. reflexivity. }
    split; [vm_compute; reflexivity|].
    split; [vm_compute; reflexivity|].
    split; [apply Permutation_swap|].
    split; [vm_compute; reflexivity|].
    split; [vm_compute; reflexivity|discriminate].
Qed.

Lemma counts_ignore_container_order_witness :
  ∃ p v s1 s2, scanResults "ns/AC" orderModel = (p, v, s1, None)
               ∧ scanResults "ns/CA" orderModel = (p, v, s2, None).
Proof.
  destruct counts_ignore_container_order as [H _].
  apply (H orderModel "ns/AC" "ns/CA" podAC podCA).
  - vm_compute. reflexivity.
  - vm_compute. reflexivity.
  - apply Permutation_swap.
Defined.

(** * Package hub *)

Lemma scanSummariesLoop_spec (l : list hub.ScanSummary) :
  hub.scanSummariesLoop l = true
  ↔ Forall (λ s, hub.Status s ∈ hub.doneStatuses) l.
Proof.
  induction l as [|s l IH]; cbn [hub.scanSummariesLoop].
  - split; [by constructor|done].
  - rewrite Forall_cons. case_bool_decide as Hd.
    + rewrite IH. tauto.
    + split; [done|]. by intros [? _].
Qed.

Lemma codeLocationsLoop_spec (l : list hub.CodeLocation) :
  hub.codeLocationsLoop l = true
  ↔ Forall (λ cl, hub.ScanSummaries cl ≠ []
                  ∧ Forall (λ s, hub.Status s ∈ hub.doneStatuses)
                           (hub.ScanSummaries cl)) l.
Proof.
  induction l as [|cl l IH]; cbn [hub.codeLocationsLoop].
  - split; [by constructor|done].
  - rewrite Forall_cons, <-scanSummariesLoop_spec.
    destruct (hub.ScanSummaries cl) as [|s ss] eqn:E; cbn [length Nat.eqb].
    + split; [done|]. by intros [[? _] _].
    + destruct (hub.scanSummariesLoop (s :: ss)).
      * rewrite IH. split; [by intros ?|by intros [_ ?]].
      * split; [done|]. by intros [[_ ?] _].
Qed.

(** X15. IsImageScanDone answers true exactly when the version has at
    least one code location, every code location has at least one scan
    summary, and the status of every scan summary is one of the seven
    final ones (the five error statuses, CANCELLED and COMPLETE). A
    version without code locations, a code location without scan
    summaries, or a single scan in any other status makes it false; and
    joining the code locations of two versions gives a done version
    exactly when both are done, if neither is empty. *)
Theorem IsImageScanDone_iff_all_scans_ended (version : hub.Version) :
  (hub.IsImageScanDone version = true
   ↔ hub.CodeLocations version ≠ [] ∧ hub.allScansEnded version)
  ∧ (∀ cls1 cls2, cls1 ≠ [] → cls2 ≠ [] →
       hub.IsImageScanDone (hub.withCodeLocations (cls1 ++ cls2) version)
       = hub.IsImageScanDone (hub.withCodeLocations cls1 version)
         && hub.IsImageScanDone (hub.withCodeLocations cls2 version)).
Proof.
  assert (∀ v, hub.IsImageScanDone v = true
               ↔ hub.CodeLocations v ≠ [] ∧ hub.allScansEnded v) as Hiff.
  { intros v. unfold hub.IsImageScanDone, hub.allScansEnded.
    rewrite <-codeLocationsLoop_spec.
    destruct (hub.CodeLocations v) as [|cl cls]; cbn [length Nat.eqb].
    - split; [done|]. by intros [? _].
    - split; [by intros ?|by intros [_ ?]]. }
  split; [apply Hiff|].
  intros cls1 cls2 H1 H2. apply eq_true_iff_eq.
  rewrite andb_true_iff, !Hiff. unfold hub.allScansEnded.
  cbn [hub.withCodeLocations hub.CodeLocations]. rewrite Forall_app.
  split.
  - intros [_ [? ?]]. done.
  - intros [[_ ?] [_ ?]]. split; [|done]. by destruct cls1.
Qed.

Lemma IsImageScanDone_iff_all_scans_ended_witness :
  hub.IsImageScanDone hub.exampleVersion = true
  ∧ hub.IsImageScanDone
      (hub.withCodeLocations
         (hub.CodeLocations hub.exampleVersion
          ++ [hub.mkCodeLocation "cl2" [hub.mkScanSummary "SCANNING"]])
         hub.exampleVersion) = false.
Proof.
  split; [vm_compute; reflexivity|].
  destruct (IsImageScanDone_iff_all_scans_ended hub.exampleVersion)
    as [_ H].
  rewrite H; [vm_compute; reflexivity|discriminate|discriminate].
Defined.

(** * Package docker *)








(** * The status metrics *)

Lemma in_range_nonneg z : 0 <= z <= GoInt.int_max → GoInt.in_range z.
Proof.
  unfold GoInt.in_range, GoInt.int_min. intros [? ?]. split; [|done].
  assert (0 <= 2 ^ 63) by (by apply Z.pow_nonneg). lia.
Qed.

Section histograms.
Context {A K : Type} `{Countable K} (f : A → K).

Lemma histogram_snoc (l : list A) (x : A) :
  metrics.histogram f (l ++ [x])
  = metrics.increment (f x) (metrics.histogram f l).
Proof. unfold metrics.histogram. by rewrite foldl_snoc. Qed.

Lemma tally_snoc (key : K) (l : list A) (x : A) :
  metrics.tally f key (l ++ [x])
  = (metrics.tally f key l + if decide (f x = key) then 1 else 0)%nat.
Proof.
  unfold metrics.tally. rewrite filter_app, length_app, filter_cons.
  rewrite filter_nil. by destruct (decide (f x = key)).
Qed.

Lemma tally_le (key : K) (l : list A) :
  (metrics.tally f key l ≤ length l)%nat.
Proof. apply length_filter. Qed.

Lemma histogram_lookup (l : list A) (key : K) :
  Z.of_nat (length l) <= GoInt.int_max →
  metrics.histogram f l !! key = metrics.counted (metrics.tally f key l).
Proof.
  induction l as [|x l IH] using rev_ind; intros Hlen.
  - unfold metrics.histogram. cbn. by rewrite lookup_empty.
  - rewrite length_app in Hlen. cbn [length] in Hlen.
    rewrite histogram_snoc, tally_snoc. unfold metrics.increment.
    destruct (decide (f x = key)) as [Hk|Hne].
    + rewrite Hk, lookup_insert_eq, IH by lia.
      pose proof (tally_le key l) as Hle.
      unfold metrics.counted, GoInt.add.
      destruct (decide (metrics.tally f key l = 0%nat)) as [E|E].
      * rewrite E. cbn [default from_option id]. rewrite decide_False by lia.
        rewrite wrap_in_range; [done|]. apply in_range_nonneg. lia.
      * cbn [default from_option id]. rewrite decide_False by lia.
        rewrite wrap_in_range; [f_equal; lia|].
        apply in_range_nonneg. lia.
    + rewrite lookup_insert_ne by done. rewrite IH by lia.
      by rewrite Nat.add_0_r.
Qed.

Lemma total_insert_None (counts : gmap K Z) (key : K) (v : Z) :
  counts !! key = None →
  metrics.total (<[key := v]> counts) = v + metrics.total counts.
Proof.
  intros Hk. unfold metrics.total.
  rewrite map_fold_insert_L; [done| |done]. intros. lia.
Qed.

Lemma total_insert_Some (counts : gmap K Z) (key : K) (v old : Z) :
  counts !! key = Some old →
  metrics.total (<[key := v]> counts) = v - old + metrics.total counts.
Proof.
  intros Hk. rewrite <-insert_delete_eq.
  rewrite total_insert_None by apply lookup_delete_eq.
  unfold metrics.total at 2.
  rewrite (map_fold_delete_L _ _ key old counts); [|intros; lia|done].
  fold (metrics.total (delete key counts)). lia.
Qed.

Lemma histogram_total (l : list A) :
  Z.of_nat (length l) <= GoInt.int_max →
  metrics.total (metrics.histogram f l) = Z.of_nat (length l).
Proof.
  induction l as [|x l IH] using rev_ind; intros Hlen.
  - unfold metrics.histogram, metrics.total. cbn. by rewrite map_fold_empty.
  - rewrite length_app in Hlen |- *. cbn [length] in Hlen |- *.
    rewrite histogram_snoc. unfold metrics.increment.
    pose proof (histogram_lookup l (f x)) as Hl.
    rewrite Hl by lia. pose proof (tally_le (f x) l) as Hle.
    unfold metrics.counted in *.
    destruct (decide (metrics.tally f (f x) l = 0%nat)) as [E|E].
    + rewrite total_insert_None by (apply Hl; lia).
      rewrite IH by lia. cbn [default from_option id]. unfold GoInt.add.
      rewrite wrap_in_range; [lia|]. apply in_range_nonneg. lia.
    + rewrite (total_insert_Some _ _ _ (Z.of_nat (metrics.tally f (f x) l)))
        by (apply Hl; lia).
      rewrite IH by lia. cbn [default from_option id]. unfold GoInt.add.
      rewrite wrap_in_range; [lia|]. apply in_range_nonneg. lia.
Qed.

Lemma histogram_positive (l : list A) (key : K) (n : Z) :
  Z.of_nat (length l) <= GoInt.int_max →
  metrics.histogram f l !! key = Some n → 1 <= n.
Proof.
  intros Hlen. rewrite histogram_lookup by done. unfold metrics.counted.
  case_decide; [done|]. intros [= <-]. lia.
Qed.

End histograms.

Lemma length_filter_map_to_list {K V} `{Countable K} (P : K * V → Prop)
  `{!∀ kv, Decision (P kv)} (m : gmap K V) :
  length (filter P (map_to_list m)) = size (filter P m).
Proof.
  induction m as [|k x m Hk _ IH] using map_first_key_ind.
  - by rewrite map_to_list_empty, map_filter_empty, map_size_empty.
  - rewrite map_to_list_insert by done. rewrite filter_cons.
    rewrite map_filter_insert. destruct (decide (P (k, x))).
    + rewrite map_size_insert_None; [cbn; by rewrite IH|].
      by rewrite map_lookup_filter_None_2; [|left].
    + by rewrite delete_id.
Qed.

Lemma tally_none {A K} `{EqDecision K} (f : A → K) (key : K) (l : list A) :
  (∀ x, f x ≠ key) → metrics.tally f key l = 0%nat.
Proof.
  intros Hne. unfold metrics.tally. induction l as [|x l IH]; [done|].
  by rewrite filter_cons, decide_False by apply Hne.
Qed.

Lemma histogram_size {A K} `{Countable K} (f : A → K) (l : list A) :
  (size (metrics.histogram f l) ≤ length l)%nat.
Proof.
  induction l as [|x l IH] using rev_ind; [done|].
  rewrite histogram_snoc, length_app. unfold metrics.increment.
  rewrite map_size_insert. cbn [length].
  destruct (metrics.histogram f l !! f x); cbn; lia.
Qed.

Lemma foldl_bind {A B C} (g : A → C → A) (h : B → list C) (a : A)
  (l : list B) :
  foldl (λ acc x, foldl g acc (h x)) a l = foldl g a (l ≫= h).
Proof.
  revert a. induction l as [|x l IH]; intros a; [done|].
  rewrite bind_cons, foldl_app. cbn [foldl]. apply IH.
Qed.

(** X17. The count generateStatusMetrics reports for an image status is
    the number of images whose status prints as that name, when some
    do; a status that no image is in gets no entry at all, so its gauge
    is not touched. The counts add up to the number of images. *)
Theorem statusCounts_counts_images_per_status
  (StatusString : ScanStatus → string) (model : Model) :
  Z.of_nat (size (Images model)) <= GoInt.int_max →
  (∀ key,
     metrics.statusCounts StatusString model !! key
     = metrics.counted
         (size (filter (λ kv : string * ImageInfo,
                          StatusString (ImageInfo_ScanStatus kv.2) = key)
                       (Images model))))
  ∧ metrics.total (metrics.statusCounts StatusString model)
    = metrics.number_of_images model.
Proof.
  intros Hsize. rewrite <-length_map_to_list in Hsize.
  change (metrics.statusCounts StatusString model)
    with (metrics.histogram
            (λ kv : string * ImageInfo,
               StatusString (ImageInfo_ScanStatus kv.2))
            (map_to_list (Images model))).
  split.
  - intros key. rewrite histogram_lookup by done.
    unfold metrics.tally. by rewrite length_filter_map_to_list.
  - rewrite histogram_total by done. unfold metrics.number_of_images.
    by rewrite length_map_to_list.
Qed.

Lemma statusCounts_counts_images_per_status_witness :
  metrics.statusCounts metrics.exampleStatusString gatedModel !! "InQueue"
  = Some 1
  ∧ metrics.statusCounts metrics.exampleStatusString gatedModel
    !! "Complete" = None
  ∧ metrics.total (metrics.statusCounts metrics.exampleStatusString
                     gatedModel) = 3.
Proof.
  destruct (statusCounts_counts_images_per_status
              metrics.exampleStatusString gatedModel) as [H1 H2];
    [vm_compute; discriminate|].
  rewrite !H1, H2. repeat split; vm_compute; reflexivity.
Defined.

(** X18. The containers-per-pod figures of generateStatusMetrics: the
    count reported for [n] containers is the number of pods that have
    exactly [n] containers, when some do, and there is no entry for an
    [n] that no pod has, nor for a negative number. The counts add up to
    the number of pods. *)
Theorem containerCounts_counts_pods_per_size (model : Model) :
  Z.of_nat (size (Pods model)) <= GoInt.int_max →
  (∀ n : nat,
     metrics.containerCounts model !! Z.of_nat n
     = metrics.counted
         (size (filter (λ kv : string * Pod, length (Containers kv.2) = n)
                       (Pods model))))
  ∧ (∀ z, z < 0 → metrics.containerCounts model !! z = None)
  ∧ metrics.total (metrics.containerCounts model)
    = metrics.number_of_pods model.
Proof.
  intros Hsize. rewrite <-length_map_to_list in Hsize.
  change (metrics.containerCounts model)
    with (metrics.histogram
            (λ kv : string * Pod, Z.of_nat (length (Containers kv.2)))
            (map_to_list (Pods model))).
  split; [|split].
  - intros n. rewrite histogram_lookup by done.
    unfold metrics.tally. rewrite <-length_filter_map_to_list.
    do 2 f_equal. apply list_filter_iff. intros kv. lia.
  - intros z Hz. rewrite histogram_lookup by done.
    rewrite tally_none; [done|]. intros kv. lia.
  - rewrite histogram_total by done. unfold metrics.number_of_pods.
    by rewrite length_map_to_list.
Qed.

Lemma containerCounts_counts_pods_per_size_witness :
  metrics.containerCounts orderModel !! Z.of_nat 2 = Some 2
  ∧ metrics.containerCounts orderModel !! Z.of_nat 1 = None
  ∧ metrics.total (metrics.containerCounts orderModel) = 2.
Proof.
  destruct (containerCounts_counts_pods_per_size orderModel)
    as (H1 & _ & H3); [vm_compute; discriminate|].
  rewrite (H1 2%nat), (H1 1%nat), H3.
  repeat split; vm_compute; reflexivity.
Defined.

(** X19. The references-per-image figures of generateStatusMetrics: the
    count kept for an image (sha and name) is the number of containers,
    over all pods, that run it; the figure reported for [n] references
    is the number of images run by exactly [n] containers; nothing is
    ever reported for zero references, so images that no pod points to
    are not counted; and the figures add up to the number of images that
    some container runs. *)
Theorem imageCounts_counts_references (model : Model) :
  Z.of_nat (length (metrics.allContainers model)) <= GoInt.int_max →
  (∀ img,
     metrics.imageCounts model !! img
     = metrics.counted
         (metrics.tally Container_Image img (metrics.allContainers model)))
  ∧ (∀ n,
       metrics.imageCountHistogram model !! n
       = metrics.counted
           (size (filter (λ kv : Image * Z, kv.2 = n)
                         (metrics.imageCounts model))))
  ∧ metrics.imageCountHistogram model !! 0 = None
  ∧ metrics.total (metrics.imageCountHistogram model)
    = Z.of_nat (size (metrics.imageCounts model)).
Proof.
  intros Hlen.
  assert (metrics.imageCounts model
          = metrics.histogram Container_Image (metrics.allContainers model))
    as Himg.
  { unfold metrics.imageCounts, metrics.histogram, metrics.allContainers.
    apply (foldl_bind (λ counts cont,
                         metrics.increment (Container_Image cont) counts)
                      (λ kv : string * Pod, Containers kv.2)). }
  assert (Z.of_nat (length (map_to_list (metrics.imageCounts model)))
          <= GoInt.int_max) as Hsize.
  { rewrite length_map_to_list, Himg.
    pose proof (histogram_size Container_Image
                  (metrics.allContainers model)). lia. }
  change (metrics.imageCountHistogram model)
    with (metrics.histogram (λ kv : Image * Z, kv.2)
            (map_to_list (metrics.imageCounts model))).
  assert (∀ n, metrics.histogram (λ kv : Image * Z, kv.2)
                 (map_to_list (metrics.imageCounts model)) !! n
               = metrics.counted
                   (size (filter (λ kv : Image * Z, kv.2 = n)
                            (metrics.imageCounts model)))) as Hhist.
  { intros n. rewrite histogram_lookup by done.
    unfold metrics.tally. by rewrite length_filter_map_to_list. }
  split; [|split; [|split]].
  - intros img. rewrite Himg. by apply histogram_lookup.
  - apply Hhist.
  - rewrite Hhist. unfold metrics.counted. rewrite decide_True; [done|].
    apply map_size_empty_iff, map_empty_filter.
    intros img n Hl Hn. cbn in Hn. subst n. rewrite Himg in Hl.
    apply histogram_positive in Hl; [lia|done].
  - rewrite histogram_total by done. by rewrite length_map_to_list.
Qed.

Lemma imageCounts_counts_references_witness :
  metrics.imageCounts twiceModel !! imageA = Some 3
  ∧ metrics.imageCountHistogram twiceModel !! 3 = Some 1
  ∧ metrics.imageCountHistogram twiceModel !! 0 = None.
Proof.
  destruct (imageCounts_counts_references twiceModel)
    as (H1 & H2 & H3 & _); [vm_compute; discriminate|].
  split; [|split; [|exact H3]].
  - rewrite H1. vm_compute. reflexivity.
  - rewrite H2. vm_compute. reflexivity.
Defined.

(** * Package scanner *)

(** X20. FetchProjectOfName returns what fetching the first listed
    project of the wanted name gives, whatever comes after it in the
    list; when no listed project has that name it returns no project and
    no error; and when listing fails it returns that error without
    fetching anything. *)
Theorem FetchProjectOfName_fetches_first_match {Project error : Type}
  (fetchProject : scanner.hubapiProject → option Project * option error)
  (projectName : string) :
  (∀ before p after,
     Forall (λ q, scanner.Project_Name q ≠ projectName) before →
     scanner.Project_Name p = projectName →
     scanner.FetchProjectOfName (inl (before ++ p :: after)) fetchProject
       projectName
     = fetchProject p)
  ∧ (∀ items,
       Forall (λ q, scanner.Project_Name q ≠ projectName) items →
       scanner.FetchProjectOfName (inl items) fetchProject projectName
       = (None, None))
  ∧ (∀ err,
       scanner.FetchProjectOfName (inr err) fetchProject projectName
       = (None, Some err)).
Proof.
  split; [|split].
  - intros before p after Hb Hp. cbn [scanner.FetchProjectOfName].
    induction Hb as [|q before Hq _ IH]; cbn [app scanner.itemsLoop].
    + by rewrite decide_False by (by intros ?).
    + by rewrite decide_True.
  - intros items Hall. cbn [scanner.FetchProjectOfName].
    induction Hall as [|q items Hq _ IH]; cbn [scanner.itemsLoop]; [done|].
    by rewrite decide_True.
  - done.
Qed.

Lemma FetchProjectOfName_fetches_first_match_witness :
  scanner.FetchProjectOfName (error := string)
    (inl [ scanner.mkHubapiProject "other" "s1";
           scanner.mkHubapiProject "perceptor" "s2";
           scanner.mkHubapiProject "perceptor" "s3" ])
    (λ p, (Some (scanner.Project_Source p), None)) "perceptor"
  = (Some "s2", None).
Proof.
  destruct (FetchProjectOfName_fetches_first_match (error := string)
              (λ p, (Some (scanner.Project_Source p), None)) "perceptor")
    as [H _].
  apply (H [scanner.mkHubapiProject "other" "s1"]
           (scanner.mkHubapiProject "perceptor" "s2")
           [scanner.mkHubapiProject "perceptor" "s3"]).
  - apply Forall_cons. split; [discriminate|]. apply Forall_nil. exact I.
  - reflexivity.
Defined.

(** * The earlier model *)

Lemma size_filter_insert_start {K V} `{Countable K} (P : K * V → Prop)
  `{!∀ kv, Decision (P kv)} (m : gmap K V) (k : K) (x y : V) :
  m !! k = Some y → ¬ P (k, y) → P (k, x) →
  size (filter P (<[k := x]> m)) = S (size (filter P m)).
Proof.
  intros Hk Hy Hx. rewrite map_filter_insert_True by done.
  rewrite map_size_insert_None; [done|].
  apply map_lookup_filter_None. right. intros y' Hy'. congruence.
Qed.

Lemma legacy_inProgressScanCount_size {Image Pod} `{Countable Image}
  (m : legacy.Model Image Pod) :
  legacy.inProgressScanCount m
  = Z.of_nat (size (filter legacy.inProgress (legacy.Images m))).
Proof.
  unfold legacy.inProgressScanCount, legacy.inProgressScanJobs.
  rewrite <-length_filter_map_to_list.
  generalize (map_to_list (legacy.Images m)). intros l. f_equal.
  assert (∀ acc : list Image,
    length (foldl (λ inProgressImages (kv : Image * legacy.ImageScanResults),
                     if legacy.isInProgress
                          (legacy.ImageScanResults_ScanStatus kv.2)
                     then inProgressImages ++ [kv.1] else inProgressImages)
              acc l)
    = (length acc + length (filter legacy.inProgress l))%nat) as Hgen.
  { induction l as [|kv l IH]; intros acc; cbn [foldl]; [cbn; lia|].
    rewrite IH, filter_cons.
    destruct (legacy.isInProgress (legacy.ImageScanResults_ScanStatus kv.2))
      eqn:E.
    - rewrite decide_True by done. rewrite length_app. cbn. lia.
    - rewrite decide_False by (unfold legacy.inProgress; congruence). lia. }
  apply (Hgen []).
Qed.

(** X21. The earlier model of the file has no admission gate:
    getNextImageFromQueue never reads ConcurrentScanLimit. Its answer is
    the same under every limit, and whenever the head of the queue has a
    record in status InQueue it hands that image out and raises the
    count of scans in progress by one, so a model that is already at or
    over its limit goes further over it. *)
Theorem legacy_dequeue_has_no_gate {Image Pod : Type} `{Countable Image}
  (m : legacy.Model Image Pod) :
  (∀ limit,
     legacy.getNextImageFromQueue (legacy.withConcurrentScanLimit limit m)
     = legacy.resultWithLimit limit (legacy.getNextImageFromQueue m))
  ∧ (∀ first rest results,
       legacy.ImageScanQueue m = first :: rest →
       legacy.Images m !! first = Some results →
       legacy.ImageScanResults_ScanStatus results
       = legacy.ScanStatusInQueue →
       ∃ m', legacy.getNextImageFromQueue m
             = legacy.Returned (Some first) m'
             ∧ legacy.ImageScanQueue m' = rest
             ∧ legacy.ConcurrentScanLimit m' = legacy.ConcurrentScanLimit m
             ∧ legacy.inProgressScanCount m'
               = legacy.inProgressScanCount m + 1
             ∧ (legacy.inProgressScanCount m
                >= legacy.ConcurrentScanLimit m →
                legacy.inProgressScanCount m'
                > legacy.ConcurrentScanLimit m')).
Proof.
  split.
  - intros limit. unfold legacy.getNextImageFromQueue.
    cbn [legacy.withConcurrentScanLimit legacy.ImageScanQueue
         legacy.Images].
    destruct (legacy.ImageScanQueue m) as [|first rest]; [done|].
    destruct (legacy.Images m !! first) as [results|]; [|done].
    by destruct (decide _).
  - intros first rest results Hq Hl Hst.
    unfold legacy.getNextImageFromQueue. rewrite Hq, Hl.
    rewrite decide_True by done. eexists. split; [reflexivity|].
    split; [done|]. split; [done|].
    assert (legacy.inProgressScanCount
              (legacy.withImageScanQueue (λ _, rest)
                 (legacy.withImages
                    (insert first
                       (legacy.setScanStatus
                          legacy.ScanStatusRunningScanClient results)) m))
            = legacy.inProgressScanCount m + 1) as Hcount.
    { rewrite !legacy_inProgressScanCount_size.
      cbn [legacy.withImageScanQueue legacy.withImages legacy.Images].
      rewrite (size_filter_insert_start _ _ _ _ results); [lia|done| |done].
      unfold legacy.inProgress. cbn. rewrite Hst. done. }
    split; [exact Hcount|]. rewrite Hcount. cbn. lia.
Qed.

Lemma legacy_dequeue_has_no_gate_witness :
  ∃ m', legacy.getNextImageFromQueue legacy.waitingModel
        = legacy.Returned (Some "image") m'
        ∧ legacy.inProgressScanCount m' > legacy.ConcurrentScanLimit m'.
Proof.
  destruct (legacy_dequeue_has_no_gate legacy.waitingModel) as [_ H].
  destruct (H "image" []
              (legacy.mkImageScanResults legacy.ScanStatusInQueue None))
    as (m' & H1 & _ & _ & _ & H5);
    [reflexivity|vm_compute; reflexivity|reflexivity|].
  exists m'. split; [exact H1|]. apply H5. vm_compute. discriminate.
Defined.

(** * What a dequeue hands out *)

Lemma queueMatches_step m m' :
  queueMatches m →
  keepsRecords m m' →
  (∀ img, img ∈ ImageHubCheckQueue m' ++ ImageScanQueue m' →
     img ∈ ImageHubCheckQueue m ++ ImageScanQueue m
     ∨ ∃ info', Images m' !! Sha img = Some info' ∧ image info' = img) →
  queueMatches m'.
Proof.
  intros Hm Hk Hq img Hin. destruct (Hq img Hin) as [Hold|Hnew]; [|done].
  destruct (Hm img Hold) as (info & Hl & Himg).
  destruct (Hk _ info Hl) as (info' & Hl' & Hsha & Hname).
  exists info'. split; [done|]. rewrite <-Himg. unfold image. congruence.
Qed.

Lemma elem_of_queues_snoc_hub (hq sq : list Image) x img :
  img ∈ (hq ++ [x]) ++ sq → img ∈ hq ++ sq ∨ img = x.
Proof.
  rewrite !elem_of_app, list_elem_of_singleton. tauto.
Qed.

Lemma elem_of_queues_snoc_scan (hq sq : list Image) x img :
  img ∈ hq ++ (sq ++ [x]) → img ∈ hq ++ sq ∨ img = x.
Proof.
  rewrite !elem_of_app, list_elem_of_singleton. tauto.
Qed.

Lemma run_queueMatches op m m' :
  consistent m → queueMatches m → run op m = Ok tt m' → queueMatches m'.
Proof.
  assert (∀ img x x', consistent x → queueMatches x →
            AddImage img x = Ok tt x' → queueMatches x') as HAdd.
  { intros img x x' _ Hm Hrun.
    apply (queueMatches_step x); [done| |].
    { by apply (run_keepsRecords (OpAddImage img)). }
    revert Hrun. rewrite AddImage_eq.
    destruct (Images x !! Sha img) as [i|] eqn:Hl; intros [= <-];
      [by left|].
    cbn [ImageHubCheckQueue ImageScanQueue Images].
    intros img' [?| ->]%elem_of_queues_snoc_hub; [by left|right].
    eexists. rewrite lookup_insert_eq. split; [done|]. by destruct img. }
  intros Hc Hm Hrun.
  destruct op; try (by eapply HAdd).
  - revert Hrun. cbn [run].
    intros (u & m1 & H1 & H2)%bind_inv_Ok. destruct u. injection H2 as <-.
    assert (consistent m1 ∧ queueMatches m1) as [_ Hm1].
    { revert H1. apply (forEach_preserves
                          (λ x, consistent x ∧ queueMatches x)); [|done].
      intros c x x' [Hcx Hmx] Hx. split.
      - by eapply AddImage_consistent.
      - by eapply HAdd. }
    exact Hm1.
  - revert Hrun. cbn [run]. intros [= <-]. exact Hm.
  - apply (queueMatches_step m); [done|by eapply run_keepsRecords|].
    revert Hrun. cbn [run]. rewrite addImageToHubCheckQueue_eq.
    destruct (Images m !! sha) as [info|] eqn:Hl; [|done].
    pose proof (consistent_keys m Hc sha info Hl) as Hkey.
    destruct (ImageInfo_ScanStatus info); try done; intros [= <-];
      cbn [ImageHubCheckQueue ImageScanQueue Images];
      (intros img' [?| ->]%elem_of_queues_snoc_hub; [by left|right]);
      eexists; cbn [image Sha]; rewrite Hkey, lookup_insert_eq;
      (split; [done|]); done.
  - apply (queueMatches_step m); [done|by eapply run_keepsRecords|].
    revert Hrun. cbn [run]. rewrite addImageToScanQueue_eq.
    destruct (Images m !! sha) as [info|] eqn:Hl; [|done].
    pose proof (consistent_keys m Hc sha info Hl) as Hkey.
    destruct (ImageInfo_ScanStatus info); try done; intros [= <-];
      cbn [ImageHubCheckQueue ImageScanQueue Images];
      (intros img' [?| ->]%elem_of_queues_snoc_scan; [by left|right]);
      eexists; cbn [image Sha]; rewrite Hkey, lookup_insert_eq;
      (split; [done|]); done.
  - apply (queueMatches_step m); [done|by eapply run_keepsRecords|].
    revert Hrun. cbn [run]. intros [a Hrun]%discard_inv. revert Hrun.
    rewrite getNextImageFromHubCheckQueue_eq.
    destruct (ImageHubCheckQueue m) as [|first rest] eqn:Hq;
      [intros [= <- <-] img' Hin; rewrite Hq in Hin; by left|].
    destruct (Images m !! Sha first) as [info|] eqn:Hl; [|done].
    destruct (decide _); [|done]. intros [= <- <-].
    cbn [ImageHubCheckQueue ImageScanQueue]. intros img' Hin. left.
    rewrite <-app_comm_cons. by right.
  - apply (queueMatches_step m); [done|by eapply run_keepsRecords|].
    revert Hrun. cbn [run]. intros [a Hrun]%discard_inv. revert Hrun.
    rewrite getNextImageFromScanQueue_eq.
    destruct (decide _); [intros [= <- <-] img' Hin; by left|].
    destruct (ImageScanQueue m) as [|first rest] eqn:Hq;
      [intros [= <- <-] img' Hin; rewrite Hq in Hin; by left|].
    destruct (Images m !! Sha first) as [info|] eqn:Hl; [|done].
    destruct (decide _); [|done]. intros [= <- <-].
    cbn [ImageHubCheckQueue ImageScanQueue]. intros img' Hin. left.
    apply elem_of_app in Hin as [?|?]; apply elem_of_app; [by left|].
    right. by right.
  - apply (queueMatches_step m); [done|by eapply run_keepsRecords|].
    revert Hrun. cbn [run]. rewrite errorRunningScanClient_eq.
    destruct (Images m !! Sha img) as [info|] eqn:Hl; [|done].
    pose proof (consistent_keys m Hc _ info Hl) as Hkey.
    destruct (decide _); [|done]. intros [= <-].
    cbn [ImageHubCheckQueue ImageScanQueue Images].
    intros img' [?| ->]%elem_of_queues_snoc_scan; [by left|right].
    eexists. cbn [image Sha]. rewrite Hkey, lookup_insert_eq.
    split; [done|]. done.
  - apply (queueMatches_step m); [done|by eapply run_keepsRecords|].
    revert Hrun. cbn [run]. rewrite finishRunningScanClient_eq.
    destruct (Images m !! Sha img) as [info|] eqn:Hl; [|done].
    destruct (decide _); [|done]. intros [= <-]. intros img' Hin. by left.
  - apply (queueMatches_step m); [done|by eapply run_keepsRecords|].
    revert Hrun. cbn [run]. rewrite ReportAnalysisComplete_eq.
    destruct (Images m !! Sha img) as [info|] eqn:Hl; [|done].
    destruct (decide _); [|done]. intros [= <-]. intros img' Hin. by left.
Qed.

Lemma reachable_queueMatches N m : reachable N m → queueMatches m.
Proof.
  induction 1 as [|m op m' Hr IH Hrun].
  - intros img Hin. cbn in Hin. by apply elem_of_nil in Hin.
  - eapply run_queueMatches; [|done|done]. by eapply reachable_consistent.
Qed.

(** X22. What a dequeue hands out is the image of a record: in a state
    a run can reach, the image returned by getNextImageFromHubCheckQueue
    or getNextImageFromScanQueue has the sha and the name of the record
    filed under its sha (the name the sha was first registered with),
    before the call and after it. *)
Theorem dequeued_image_is_its_record (N : Z) (m m' : Model) (img : Image) :
  reachable N m →
  getNextImageFromHubCheckQueue m = Ok (Some img) m'
  ∨ getNextImageFromScanQueue m = Ok (Some img) m' →
  (∃ info, Images m !! Sha img = Some info ∧ image info = img)
  ∧ (∃ info', Images m' !! Sha img = Some info' ∧ image info' = img).
Proof.
  intros Hr Hdeq.
  pose proof (reachable_queueMatches N m Hr) as Hm.
  assert (img ∈ ImageHubCheckQueue m ++ ImageScanQueue m) as Hin.
  { destruct Hdeq as [Hd|Hd]; revert Hd.
    - rewrite getNextImageFromHubCheckQueue_eq.
      destruct (ImageHubCheckQueue m) as [|first rest]; [done|].
      destruct (Images m !! Sha first) as [info|]; [|done].
      destruct (decide _); [|done]. intros [= -> _].
      apply elem_of_app. left. by left.
    - rewrite getNextImageFromScanQueue_eq.
      destruct (decide _); [done|].
      destruct (ImageScanQueue m) as [|first rest]; [done|].
      destruct (Images m !! Sha first) as [info|]; [|done].
      destruct (decide _); [|done]. intros [= -> _].
      apply elem_of_app. right. by left. }
  destruct (Hm img Hin) as (info & Hl & Himg).
  split; [by exists info|].
  assert (keepsRecords m m') as Hk.
  { destruct Hdeq as [Hd|Hd].
    - apply (run_keepsRecords OpGetNextImageFromHubCheckQueue).
      cbn [run]. by rewrite discard_eq, Hd.
    - apply (run_keepsRecords OpGetNextImageFromScanQueue).
      cbn [run]. by rewrite discard_eq, Hd. }
  destruct (Hk _ info Hl) as (info' & Hl' & Hsha & Hname).
  exists info'. split; [done|]. rewrite <-Himg. unfold image. congruence.
Qed.

Lemma dequeued_image_is_its_record_witness :
  ∃ info, Images queuedModel !! "sha-a" = Some info ∧ image info = imageA.
Proof.
  destruct (dequeued_image_is_its_record 1 queuedModel
              (stateOf (getNextImageFromScanQueue queuedModel)) imageA
              queuedModel_reachable) as [H _];
    [right; vm_compute; reflexivity|exact H].
Defined.
